(** * scrape_qiita.py: a shallow embedding and its specification

    Source: [.specstory/deprecated/scripts/scrape_qiita.py].

    Python strings are sequences of Unicode code points; they are modelled
    as lists of code points ([N]).  The library calls the script relies on
    ([str.strip], [str.split], [str.join], [re.search], [re.sub]) are
    modelled by their documented behaviour; the functions of the script
    itself are then transcribed line by line. *)

From Equations Require Import Equations.
From Equations.Prop Require Import Logic.
From Stdlib Require Import String Ascii NArith ZArith Arith Bool Lia List.
Import ListNotations.

Set Warnings "-register-all".

(** ** Strings *)

Module PyStr.

Definition char := N.
Definition str := list char.

(** A Rocq string literal read as a Python string (one code point per byte). *)
Definition lit (s : string) : str :=
  List.map N_of_ascii (list_ascii_of_string s).

Definition NL : char := 10%N.       (* "\n" *)
Definition SLASH : char := 47%N.    (* "/" *)
Definition DASH : char := 45%N.     (* "-" *)
Definition LBRACK : char := 91%N.   (* "[" *)
Definition RBRACK : char := 93%N.   (* "]" *)
Definition LPAREN : char := 40%N.   (* "(" *)
Definition RPAREN : char := 41%N.   (* ")" *)

Definition eqc (a b : char) : bool := N.eqb a b.

(** Whitespace as [str.strip()] without argument sees it: the code points
    for which [str.isspace] holds. *)
Definition isspace (c : char) : bool :=
  ((9 <=? c) && (c <=? 13) || (28 <=? c) && (c <=? 32)
   || (c =? 133) || (c =? 160) || (c =? 5760)
   || (8192 <=? c) && (c <=? 8202)
   || (c =? 8232) || (c =? 8233) || (c =? 8239) || (c =? 8287)
   || (c =? 12288))%N.

Fixpoint dropwhile (p : char -> bool) (s : str) : str :=
  match s with
  | [] => []
  | c :: s' => if p c then dropwhile p s' else s
  end.

(** [s.lstrip()], [s.rstrip()], [s.strip()] *)
Definition lstrip (s : str) : str := dropwhile isspace s.
Definition rstrip (s : str) : str := rev (dropwhile isspace (rev s)).
Definition strip (s : str) : str := rstrip (lstrip s).

(** [s.rstrip(chars)] for a one-character [chars] *)
Definition rstrip_char (c : char) (s : str) : str :=
  rev (dropwhile (eqc c) (rev s)).

(** [s.startswith(p)], returning the remainder after the prefix *)
Fixpoint strip_prefix (p s : str) : option str :=
  match p with
  | [] => Some s
  | a :: p' =>
      match s with
      | [] => None
      | b :: s' => if eqc a b then strip_prefix p' s' else None
      end
  end.

Definition startswith (s p : str) : bool :=
  match strip_prefix p s with Some _ => true | None => false end.

(** [s.find(sep)], as the text before the leftmost occurrence of [sep] and
    the text after it *)
Fixpoint find_sep (sep s : str) : option (str * str) :=
  match strip_prefix sep s with
  | Some rest => Some ([], rest)
  | None =>
      match s with
      | [] => None
      | c :: s' =>
          match find_sep sep s' with
          | Some (before, after) => Some (c :: before, after)
          | None => None
          end
      end
  end.

Lemma find_sep_shorter (c : char) (sep s before after : str) :
  find_sep (c :: sep) s = Some (before, after) -> length after < length s.
Proof.
  revert before after.
  induction s as [|x s IH]; intros before after; simpl.
  - discriminate.
  - destruct (eqc c x).
    + destruct (strip_prefix sep s) as [rest|] eqn:Hp.
      * intros [= <- <-].
        clear IH. revert s Hp.
        induction sep as [|d sep IHs]; intros s Hp; simpl in Hp.
        -- injection Hp as <-. lia.
        -- destruct s as [|y s]; [discriminate|].
           destruct (eqc d y); [|discriminate].
           apply IHs in Hp. simpl. lia.
      * destruct s as [|y s]; [destruct sep; discriminate|].
        destruct (find_sep (c :: sep) (y :: s)) as [[b a]|] eqn:Hf;
          [|discriminate].
        intros [= <- <-]. specialize (IH _ _ eq_refl). simpl in *. lia.
    + destruct s as [|y s]; [discriminate|].
      destruct (find_sep (c :: sep) (y :: s)) as [[b a]|] eqn:Hf;
        [|discriminate].
      intros [= <- <-]. specialize (IH _ _ eq_refl). simpl in *. lia.
Qed.

(** [s.split(sep)]: cut at the successive leftmost occurrences of [sep].
    Python raises [ValueError] for an empty separator; the script only
    passes the literals "\n\n", "\n" and "/", and the model returns [[s]]
    there. *)
Equations split (sep s : str) : list str by wf (length s) lt :=
  split [] s := [s];
  split (c :: sep) s with inspect (find_sep (c :: sep) s) := {
    | exist _ (Some (before, after)) H => before :: split (c :: sep) after;
    | exist _ None _ => [s] }.
Next Obligation.
  eapply find_sep_shorter; eauto.
Qed.

(** [sep.join(parts)] *)
Fixpoint join (sep : str) (parts : list str) : str :=
  match parts with
  | [] => []
  | [p] => p
  | p :: ps => p ++ sep ++ join sep ps
  end.

(** A character put in front of the first piece of a split *)
Definition cons_head (x : char) (ps : list str) : list str :=
  match ps with
  | [] => [[x]]
  | p :: ps' => (x :: p) :: ps'
  end.

End PyStr.
Import PyStr.

(** ** LinkSource: [read_links_from_docs_readme] *)

Module LinkSource.

(** [@dataclass class LinkItem] *)
Record LinkItem : Type := mkLinkItem {
  title : str;
  url : str;
  parent : option str
}.

(** [for line in f]: the lines of the text the file object delivers
    (decoded, line ends already translated to "\n"), each with its
    terminating "\n" (the last one without, when the text does not end in
    a newline). *)
Fixpoint file_lines (s : str) : list str :=
  match s with
  | [] => []
  | c :: s' =>
      if eqc c NL then [NL] :: file_lines s'
      else match file_lines s' with
           | [] => [[c]]
           | l :: ls => (c :: l) :: ls
           end
  end.

(** The regular expression [\[(.*?)\]\((https?://[^\)]+)\)], matched the
    way a backtracking matcher does, piece by piece from the right. *)

(** [[^\)]+] is greedy: it takes every character up to the next ")" (or the
    end).  Giving characters back never helps the [\)] that follows, since
    the character after a shorter run is not a ")". *)
Fixpoint take_url_body (s : str) : str * str :=
  match s with
  | [] => ([], [])
  | c :: s' =>
      if eqc c RPAREN then ([], s)
      else let (body, rest) := take_url_body s' in (c :: body, rest)
  end.

(** [://[^\)]+\)] after the scheme; the result is group 2 *)
Definition match_after_scheme (scheme s : str) : option str :=
  match strip_prefix (lit "://") s with
  | None => None
  | Some r =>
      match take_url_body r with
      | (c :: body, _ :: _) => Some (scheme ++ lit "://" ++ c :: body)
      | _ => None
      end
  end.

(** [https?://[^\)]+\)]: the optional "s" is tried first *)
Definition match_url (s : str) : option str :=
  match strip_prefix (lit "http") s with
  | None => None
  | Some r =>
      match match strip_prefix (lit "s") r with
            | Some r' => match_after_scheme (lit "https") r'
            | None => None
            end
      with
      | Some u => Some u
      | None => match_after_scheme (lit "http") r
      end
  end.

(** [\]\(] and the URL group *)
Definition match_close (s : str) : option str :=
  match strip_prefix (lit "](") s with
  | None => None
  | Some r => match_url r
  end.

(** [(.*?)] is lazy: the shortest title after which the rest matches; "."
    does not match "\n". The result is (group 1, group 2). *)
Fixpoint match_title (s : str) : option (str * str) :=
  match match_close s with
  | Some u => Some ([], u)
  | None =>
      match s with
      | [] => None
      | c :: s' =>
          if eqc c NL then None
          else match match_title s' with
               | Some (t, u) => Some (c :: t, u)
               | None => None
               end
      end
  end.

(** [re.search(pattern, line)]: the match at the leftmost start position *)
Fixpoint re_search_link (s : str) : option (str * str) :=
  match s with
  | [] => None
  | c :: s' =>
      match (if eqc c LBRACK then match_title s' else None) with
      | Some m => Some m
      | None => re_search_link s'
      end
  end.

(** The body of the [for line in f] loop, on the list [links] *)
Definition loop_body (links : list LinkItem) (line : str) : list LinkItem :=
  let line := strip line in
  if negb (startswith line (lit "-")) then links
  else
    match re_search_link line with
    | None => links
    | Some (title, url) =>
        let indent :=
          (Z.of_nat (length line) - Z.of_nat (length (lstrip line)))%Z in
        let parent :=
          match links with
          | first :: _ => if (0 <? indent)%Z then Some first.(LinkSource.title) else None
          | [] => None
          end in
        links ++ [mkLinkItem title url parent]
    end.

(** [read_links_from_docs_readme], on the text of the file *)
Definition read_links_from_docs_readme (doc : str) : list LinkItem :=
  fold_left loop_body (file_lines doc) [].

End LinkSource.

(** ** MarkdownConverter: [html_to_markdown_text] *)

Module MarkdownConverter.

(** What [re.sub(r"\n{3,}", "\n\n", s)] puts for a maximal run of [run]
    newlines: the run is kept when shorter than 3 and replaced otherwise. *)
Definition emit_run (run : nat) : str :=
  if 3 <=? run then [NL; NL] else repeat NL run.

(** [re.sub(r"\n{3,}", "\n\n", s)]: a left-to-right scan; [\n{3,}] is
    greedy, so each match is a maximal run.  [run] counts the newlines read
    since the last other character. *)
Fixpoint sub_newlines_from (run : nat) (s : str) : str :=
  match s with
  | [] => emit_run run
  | c :: s' =>
      if eqc c NL then sub_newlines_from (S run) s'
      else emit_run run ++ c :: sub_newlines_from 0 s'
  end.

Definition sub_newlines (s : str) : str := sub_newlines_from 0 s.

Section Converter.

(** [md(extract_article_html(html), heading_style="ATX")]: the extraction
    and the markdownify conversion are library work; any function from
    text to text stands for them. *)
Variable article_markdown : str -> str.

Definition html_to_markdown_text (html : str) : str :=
  let text_md := article_markdown html in
  let text_md := sub_newlines text_md in
  strip text_md.

End Converter.

End MarkdownConverter.

(** ** Translator: [translate_text] *)

Module Translator.

(** Exceptions: [except Exception] catches the instances of [Exception]
    (errors); [KeyboardInterrupt], [SystemExit] and the like derive from
    [BaseException] only and are not caught. *)
Inductive exn : Type :=
| Exception (what : str)
| BaseExceptionOnly (what : str).

Definition is_Exception (e : exn) : bool :=
  match e with Exception _ => true | BaseExceptionOnly _ => false end.

Inductive outcome (A : Type) : Type :=
| Return (a : A)
| Raise (e : exn).
Arguments Return {A} a.
Arguments Raise {A} e.

(** Computations that may call the translation backend: the state is the
    list of the texts submitted so far, oldest first. *)
Definition M (A : Type) : Type := list str -> outcome A * list str.

Definition ret {A} (a : A) : M A := fun calls => (Return a, calls).

Definition bind {A B} (m : M A) (f : A -> M B) : M B :=
  fun calls =>
    match m calls with
    | (Return a, calls') => f a calls'
    | (Raise e, calls') => (Raise e, calls')
    end.

Notation "x <- m ;; k" := (bind m (fun x => k))
  (at level 61, m at next level, right associativity).

(** [try: m  except Exception: handler] *)
Definition try_except_Exception {A} (m handler : M A) : M A :=
  fun calls =>
    match m calls with
    | (Return a, calls') => (Return a, calls')
    | (Raise e, calls') =>
        if is_Exception e then handler calls' else (Raise e, calls')
    end.

(** [for x in xs: out.append(f(x))] *)
Fixpoint for_each {A B} (f : A -> M B) (xs : list A) : M (list B) :=
  match xs with
  | [] => ret []
  | x :: xs' => y <- f x ;; ys <- for_each f xs' ;; ret (y :: ys)
  end.

Definition SAFETY_MARGIN : nat := 3500.

(** The state of the packing loop *)
Record packing : Type := mkPacking {
  chunks : list str;
  current : list str;
  current_len : nat
}.

Definition pack_line (st : packing) (line : str) : packing :=
  if SAFETY_MARGIN <? st.(current_len) + length line + 1 then
    {| chunks := st.(chunks) ++ [join [NL] st.(current)];
       current := [line];
       current_len := length line |}
  else
    {| chunks := st.(chunks);
       current := st.(current) ++ [line];
       current_len := st.(current_len) + (length line + 1) |}.

(** The packing loop over the lines of a block, and the final flush *)
Definition pack_lines (lines : list str) : list str :=
  let st := fold_left pack_line lines (mkPacking [] [] 0) in
  match st.(current) with
  | [] => st.(chunks)
  | _ :: _ => st.(chunks) ++ [join [NL] st.(current)]
  end.

(** The chunks of a block (lines 103 to 116) *)
Definition pack_chunks (block : str) : list str :=
  pack_lines (split [NL] block).

Section Backend.

(** [translator.translate(chunk)]: the backend answers with a text or
    raises; the answer may depend on the calls made before. *)
Variable translate : list str -> str -> outcome str.

Definition translator_translate (chunk : str) : M str :=
  fun calls => (translate calls chunk, calls ++ [chunk]).

Definition translate_chunk (chunk : str) : M str :=
  try_except_Exception (translator_translate chunk) (ret chunk).

(** The body of [for block in paragraphs] *)
Definition translate_block (block : str) : M str :=
  let block := strip block in
  match block with
  | [] => ret []
  | _ :: _ =>
      translated_chunk_list <- for_each translate_chunk (pack_chunks block) ;;
      ret (join [NL] translated_chunk_list)
  end.

(** [translate_text]; the construction of the [GoogleTranslator] object
    makes no call and is left out. *)
Definition translate_text (text : str) : M str :=
  match strip text with
  | [] => ret text
  | _ :: _ =>
      let paragraphs := split [NL; NL] text in
      translated_blocks <- for_each translate_block paragraphs ;;
      ret (join [NL; NL] translated_blocks)
  end.

End Backend.

(** The backend replaced by the identity function *)
Definition identity_backend : list str -> str -> outcome str :=
  fun _ chunk => Return chunk.

End Translator.

(** ** TitleExtractor: [get_title_from_html] *)

Module TitleExtractor.

(** The document tree BeautifulSoup builds: tags, text strings, and the
    strings [get_text] leaves out (comments, declarations). *)
Inductive node : Type :=
| NavigableString (s : str)
| Comment (s : str)
| Tag (name : str) (contents : list node).

Fixpoint str_eqb (a b : str) : bool :=
  match a, b with
  | [], [] => true
  | x :: a', y :: b' => eqc x y && str_eqb a' b'
  | _, _ => false
  end.

(** [soup.find(name)]: the first tag of that name in document order,
    given the contents of the tag searched. *)
Fixpoint find_in (name : str) (n : node) : option node :=
  match n with
  | NavigableString _ => None
  | Comment _ => None
  | Tag nm contents =>
      if str_eqb nm name then Some n
      else
        (fix find_list (ns : list node) : option node :=
           match ns with
           | [] => None
           | m :: ns' =>
               match find_in name m with
               | Some r => Some r
               | None => find_list ns'
               end
           end) contents
  end.

Fixpoint find (name : str) (soup : list node) : option node :=
  match soup with
  | [] => None
  | n :: ns =>
      match find_in name n with
      | Some r => Some r
      | None => find name ns
      end
  end.

(** [tag.get_text(strip=True)]: the text strings below the tag, each
    stripped, the empty ones dropped, joined with nothing between. *)
Fixpoint node_text (n : node) : str :=
  match n with
  | NavigableString s => strip s
  | Comment _ => []
  | Tag _ contents =>
      (fix texts (ns : list node) : str :=
         match ns with
         | [] => []
         | m :: ns' => node_text m ++ texts ns'
         end) contents
  end.

Definition get_text (n : node) : str := node_text n.

(** [get_title_from_html], on the tree of [BeautifulSoup(html, "html.parser")] *)
Definition get_title_from_html (soup : list node) : str :=
  (* lines 132 to 135, reached when the test on [h1] fails *)
  let from_title :=
    match find (lit "title") soup with
    | Some title_tag =>
        match get_text title_tag with
        | [] => []
        | _ :: _ => get_text title_tag
        end
    | None => []
    end in
  (* lines 129 to 131 *)
  match find (lit "h1") soup with
  | Some h1 =>
      match get_text h1 with
      | [] => from_title
      | _ :: _ => get_text h1
      end
  | None => from_title
  end.

End TitleExtractor.

(** ** Persister: the output file name *)

Module Persister.

(** [url.rstrip("/").split("/")[-1]] *)
Definition qiita_id_from_url (url : str) : str :=
  last (split [SLASH] (rstrip_char SLASH url)) [].

(** [filename = f"qiita_{item_id}.md"] in [process_link] *)
Definition output_filename (link : LinkSource.LinkItem) : str :=
  let item_id := qiita_id_from_url link.(LinkSource.url) in
  lit "qiita_" ++ item_id ++ lit ".md".

End Persister.

(** ** [slugify] *)

Module Slugify.

(** [re.sub(r"[...]+", repl, s)] for a character class: every maximal run
    of characters of the class is replaced by [repl].  [in_run] tells that
    the character just read belongs to the class. *)
Fixpoint sub_class_runs (cls : char -> bool) (repl : str) (in_run : bool)
         (s : str) : str :=
  match s with
  | [] => []
  | c :: s' =>
      if cls c
      then (if in_run then [] else repl) ++ sub_class_runs cls repl true s'
      else c :: sub_class_runs cls repl false s'
  end.

(** The class [[\s/]] *)
Definition space_or_slash (c : char) : bool := isspace c || eqc c SLASH.

(** The class [[a-z0-9\-]] *)
Definition slug_char (c : char) : bool :=
  ((97 <=? c) && (c <=? 122) || (48 <=? c) && (c <=? 57))%N || eqc c DASH.

(** [s.strip(chars)] for a one-character [chars] *)
Definition strip_char (c : char) (s : str) : str :=
  rev (dropwhile (eqc c) (rev (dropwhile (eqc c) s))).

Section Lower.

(** [str.lower()], the lower-casing of the Unicode database: a library
    function, any function from text to text here. *)
Variable lower : str -> str.

Definition slugify (value : str) : str :=
  let value := lower (strip value) in
  let value := sub_class_runs space_or_slash (lit "-") false value in
  let value := sub_class_runs (fun c => negb (slug_char c)) [] false value in
  let value := sub_class_runs (eqc DASH) (lit "-") false value in
  match strip_char DASH value with
  | [] => lit "page"
  | c :: r => c :: r
  end.

End Lower.

(** Lower-casing of the letters A to Z only *)
Definition ascii_lower (s : str) : str :=
  map (fun c => if ((65 <=? c) && (c <=? 90))%N then (c + 32)%N else c) s.

End Slugify.

(** ** [extract_article_html] *)

Module ContentExtractor.

(** The document tree of [BeautifulSoup(html, "html.parser")], with what
    the selectors of [extract_article_html] look at: the name of a tag and
    the classes of its [class] attribute.  Comments and declarations are
    strings of the tree like the text. *)
Inductive node : Type :=
| NavigableString (s : str)
| Tag (name : str) (classes : list str) (contents : list node).

Definition str_eqb : str -> str -> bool := TitleExtractor.str_eqb.

Definition first_some {A B : Type} (f : A -> option B) : list A -> option B :=
  fix go (l : list A) : option B :=
    match l with
    | [] => None
    | x :: l' =>
        match f x with
        | Some r => Some r
        | None => go l'
        end
    end.

(** The selector ["article"] *)
Definition is_article (name : str) (classes : list str) : bool :=
  str_eqb name (lit "article").

(** The selector ["div.it-MdContent"] *)
Definition is_md_content (name : str) (classes : list str) : bool :=
  str_eqb name (lit "div") && existsb (str_eqb (lit "it-MdContent")) classes.

(** [select_one]: the first tag in document order that the selector
    matches, [None] when there is none. *)
Fixpoint select_in (sel : str -> list str -> bool) (n : node) : option node :=
  match n with
  | NavigableString _ => None
  | Tag name classes contents =>
      if sel name classes then Some n
      else first_some (select_in sel) contents
  end.

Definition select_one (sel : str -> list str -> bool) (soup : list node)
  : option node :=
  first_some (select_in sel) soup.

Definition NON_CONTENT : list str :=
  [lit "script"; lit "style"; lit "nav"; lit "header"; lit "footer";
   lit "aside"].

Definition non_content (n : node) : bool :=
  match n with
  | NavigableString _ => false
  | Tag name _ _ => existsb (str_eqb name) NON_CONTENT
  end.

(** Lines 71 and 72: [find_all] lists the tags below [article] that have
    one of the names, and [decompose] takes each of them out of the tree
    together with what it contains (a listed tag inside another listed tag
    is gone with the outer one).  What is left is the tree without these
    tags. *)
Fixpoint decompose_all (n : node) : node :=
  match n with
  | NavigableString _ => n
  | Tag name classes contents =>
      Tag name classes
        (flat_map (fun m => if non_content m then [] else [decompose_all m])
           contents)
  end.

(** The [BeautifulSoup] object is itself a tag, named ["[document]"]. *)
Definition soup_object (soup : list node) : node :=
  Tag (lit "[document]") [] soup.

(** [extract_article_html] up to the last line: the tree that [str] then
    prints. *)
Definition extract_article (soup : list node) : node :=
  let article :=
    match select_one is_article soup with
    | Some a => a
    | None =>
        match select_one is_md_content soup with
        | Some d => d
        | None => soup_object soup
        end
    end in
  decompose_all article.

Section Library.

(** The parser and the printer of the library *)
Variable BeautifulSoup : str -> list node.
Variable to_str : node -> str.

Definition extract_article_html (html : str) : str :=
  to_str (extract_article (BeautifulSoup html)).

End Library.

End ContentExtractor.

(** ** The other components, in the words of the specification *)

Module TitleSpec.

Import TitleExtractor.

(** Every tag of a given name, in document order *)
Fixpoint find_all_in (name : str) (n : node) : list node :=
  match n with
  | NavigableString _ => []
  | Comment _ => []
  | Tag nm contents =>
      (if str_eqb nm name then [n] else [])
      ++ (fix find_all_list (ns : list node) : list node :=
            match ns with
            | [] => []
            | m :: ns' => find_all_in name m ++ find_all_list ns'
            end) contents
  end.

Fixpoint find_all (name : str) (soup : list node) : list node :=
  match soup with
  | [] => []
  | n :: ns => find_all_in name n ++ find_all name ns
  end.

Fixpoint first_nonempty (texts : list str) : option str :=
  match texts with
  | [] => None
  | [] :: rest => first_nonempty rest
  | (c :: t) :: _ => Some (c :: t)
  end.

(** "the page <title> text", the empty string when there is none *)
Definition title_text (soup : list node) : str :=
  match find_all (lit "title") soup with
  | title_tag :: _ => get_text title_tag
  | [] => []
  end.

(** "the first non-empty text of an <h1> heading; if none, fall back to the
    page <title> text; if neither exists, return empty string" *)
Definition title_of_spec (soup : list node) : str :=
  match first_nonempty (map get_text (find_all (lit "h1") soup)) with
  | Some t => t
  | None => title_text soup
  end.

End TitleSpec.

Module MarkdownSpec.

(** No run of newlines reaches 3, [run] newlines having just been read *)
Fixpoint runs_below_3 (run : nat) (s : str) : bool :=
  match s with
  | [] => true
  | c :: s' =>
      if eqc c NL then (S run <? 3) && runs_below_3 (S run) s'
      else runs_below_3 0 s'
  end.

(** The text cut into its maximal runs of one character: the character
    and the length of each run, in order *)
Fixpoint runs (s : str) : list (char * nat) :=
  match s with
  | [] => []
  | c :: s' =>
      match runs s' with
      | (d, n) :: rs =>
          if eqc c d then (d, S n) :: rs else (c, 1) :: (d, n) :: rs
      | [] => [(c, 1)]
      end
  end.

(** "collapse any run of 3 or more consecutive newline characters down to
    exactly 2": such a run becomes two newlines, any other run stays. *)
Definition collapse_run (r : char * nat) : str :=
  if eqc (fst r) NL && (3 <=? snd r) then [NL; NL]
  else repeat (fst r) (snd r).

Definition collapse_newlines (s : str) : str :=
  flat_map collapse_run (runs s).

End MarkdownSpec.

Module PersisterSpec.

Definition nonempty (s : str) : bool :=
  match s with [] => false | _ :: _ => true end.

Definition QUESTION : char := 63%N.   (* "?" *)
Definition HASH : char := 35%N.       (* "#" *)

Fixpoint takewhile (p : char -> bool) (s : str) : str :=
  match s with
  | [] => []
  | c :: s' => if p c then c :: takewhile p s' else []
  end.

(** The characters that begin the query and the fragment of a URL *)
Definition query_or_fragment (c : char) : bool :=
  eqc c QUESTION || eqc c HASH.

(** The characters that end the authority (the host) of a URL *)
Definition ends_authority (c : char) : bool :=
  eqc c SLASH || query_or_fragment c.

(** The path of a URL scheme://authority/path?query#fragment: what follows
    the authority, up to the query or the fragment.  A text without "://"
    is read as a path followed by a query or a fragment. *)
Definition url_path (url : str) : str :=
  match find_sep (lit "://") url with
  | Some (_, rest) =>
      takewhile (fun c => negb (query_or_fragment c))
        (dropwhile (fun c => negb (ends_authority c)) rest)
  | None => takewhile (fun c => negb (query_or_fragment c)) url
  end.

(** "the last non-empty path segment of the source URL", the segments
    being the pieces of the path between "/" characters; the empty text
    when the path has none *)
Definition last_nonempty_path_segment (url : str) : str :=
  last (filter nonempty (split [SLASH] (url_path url))) [].

(** The last non-empty piece of the whole URL text cut at its "/"
    characters: scheme, host, query and fragment are cut like the path *)
Definition last_nonempty_piece (url : str) : str :=
  last (filter nonempty (split [SLASH] url)) [].

(** A URL without query and without fragment *)
Definition no_query_no_fragment (url : str) : bool :=
  forallb (fun c => negb (query_or_fragment c)) url.

End PersisterSpec.

Module TranslatorSpec.

Import Translator.

(** A backend that answers with the chunk itself wherever [translate]
    raises: "that chunk's original (untranslated) text is substituted" *)
Definition substituting (translate : list str -> str -> outcome str)
  : list str -> str -> outcome str :=
  fun calls chunk =>
    match translate calls chunk with
    | Return t => Return t
    | Raise _ => Return chunk
    end.

(** A chunk respects the safety margin, or is a single oversized line of
    one of the paragraphs of the text. *)
Definition chunk_ok (text chunk : str) : Prop :=
  length chunk <= SAFETY_MARGIN
  \/ (SAFETY_MARGIN < length chunk
      /\ exists p, In p (split [NL; NL] text)
                   /\ In chunk (split [NL] (strip p))).

(** The state the packing loop starts from *)
Definition init_packing : packing := mkPacking [] [] 0.

(** What holds of the state of the loop once the lines [done] are read *)
Definition packing_inv (done : list str) (st : packing) : Prop :=
  Forall (fun c => length c <= SAFETY_MARGIN
                   \/ (SAFETY_MARGIN < length c /\ In c done)) (chunks st)
  /\ length (join [NL] (current st)) <= current_len st
  /\ (current_len st <= SAFETY_MARGIN
      \/ exists l, current st = [l] /\ In l done /\ SAFETY_MARGIN < length l)
  /\ (forall l, In l done -> SAFETY_MARGIN < length l ->
                In l (chunks st) \/ current st = [l]).

(** The text of a state: its closed chunks and the open one, joined *)
Definition packed_text (st : packing) : str :=
  join [NL] (chunks st ++ [join [NL] (current st)]).

(** A text without blank line inside *)
Definition nn_free (s : str) : Prop := find_sep [NL; NL] s = None.

(** What a paragraph becomes when every chunk is translated to itself *)
Definition identity_block (p : str) : str :=
  match strip p with
  | [] => []
  | _ :: _ => join [NL] (pack_chunks (strip p))
  end.

End TranslatorSpec.

(** ** The link lines, in the words of the specification

    These definitions follow the specification of LinkSource, not the
    code; the theorems below compare them with [read_links_from_docs_readme]. *)

Module LinkSpec.

(** "the first non-space character is a list marker" *)
Definition first_nonspace_is_marker (line : str) : Prop :=
  exists ws rest, line = ws ++ DASH :: rest /\ forallb isspace ws = true.

(** "restricted to http/https URLs" *)
Definition http_url (u : str) : Prop :=
  exists body,
    body <> [] /\ ~ In RPAREN body
    /\ (u = lit "http://" ++ body \/ u = lit "https://" ++ body).

(** "the line contains a Markdown-style [title](url) pattern" *)
Definition link_in (line title url : str) : Prop :=
  exists pre post,
    line = pre ++ [LBRACK] ++ title ++ [RBRACK; LPAREN] ++ url
               ++ [RPAREN] ++ post
    /\ ~ In NL title /\ http_url url.

Definition valid_link_line (line : str) : Prop :=
  first_nonspace_is_marker line /\ exists title url, link_in line title url.

(** [valid_lines ls vs]: [vs] are the valid link lines of [ls], in order. *)
Inductive valid_lines : list str -> list str -> Prop :=
| valid_lines_nil : valid_lines [] []
| valid_lines_keep l ls vs :
    valid_link_line l -> valid_lines ls vs -> valid_lines (l :: ls) (l :: vs)
| valid_lines_skip l ls vs :
    ~ valid_link_line l -> valid_lines ls vs -> valid_lines (l :: ls) vs.

End LinkSpec.

(** ** Shapes of texts and trees *)

Module TextSpec.

Import Translator.

(** Every character but the newline *)
Definition not_NL (c : char) : bool := negb (eqc c NL).

(** Every character but the whitespace *)
Definition visible (c : char) : bool := negb (isspace c).

(** The chunks of a paragraph, none for a blank one *)
Definition paragraph_chunks (p : str) : list str :=
  match strip p with
  | [] => []
  | _ :: _ => pack_chunks (strip p)
  end.

End TextSpec.

Module RecoverySpec.

Import Translator TranslatorSpec TextSpec.

Section Outputs.

Variable translate : list str -> str -> outcome str.

(** What stands in the output for a chunk submitted after the calls
    [calls]: the answer of the backend, and the chunk's own untranslated
    text when the call fails. *)
Definition chunk_output (calls : list str) (chunk : str) : str :=
  match translate calls chunk with
  | Return t => t
  | Raise _ => chunk
  end.

(** The same for chunks submitted one after the other, each in its
    position *)
Fixpoint chunk_outputs (calls : list str) (cs : list str) : list str :=
  match cs with
  | [] => []
  | c :: cs' => chunk_output calls c :: chunk_outputs (calls ++ [c]) cs'
  end.

(** The output paragraphs: for each paragraph the outputs of its chunks,
    one per line *)
Fixpoint block_outputs (calls : list str) (ps : list str) : list str :=
  match ps with
  | [] => []
  | p :: ps' =>
      join [NL] (chunk_outputs calls (paragraph_chunks p))
      :: block_outputs (calls ++ paragraph_chunks p) ps'
  end.

(** The output text: a blank text as it is, the output paragraphs with a
    blank line between them otherwise *)
Definition substituted_text (calls : list str) (text : str) : str :=
  match strip text with
  | [] => text
  | _ :: _ => join [NL; NL] (block_outputs calls (split [NL; NL] text))
  end.

End Outputs.

(** The chunks of a text, in the order of the text *)
Definition submitted_chunks (text : str) : list str :=
  match strip text with
  | [] => []
  | _ :: _ => flat_map paragraph_chunks (split [NL; NL] text)
  end.

(** The text with every chunk left untranslated *)
Definition untranslated_text (text : str) : str :=
  match strip text with
  | [] => text
  | _ :: _ => join [NL; NL] (map identity_block (split [NL; NL] text))
  end.

End RecoverySpec.

Module SlugSpec.

Import Slugify.

(** The shape of a slug: lower-case letters, digits and single "-"
    between them, at least one character. *)
Definition slug_text (r : str) : Prop :=
  forallb slug_char r = true /\ r <> []
  /\ (forall t, r <> DASH :: t) /\ (forall t, r <> t ++ [DASH])
  /\ (forall a t, r <> a ++ [DASH; DASH] ++ t).

End SlugSpec.

Module ExtractorSpec.

Import ContentExtractor.

(** All the nodes below a node, in document order *)
Fixpoint descendants (n : node) : list node :=
  match n with
  | NavigableString _ => []
  | Tag _ _ contents => flat_map (fun m => m :: descendants m) contents
  end.

(** The document a tree is the tree of: the contents of the
    [BeautifulSoup] object, a single tag otherwise. *)
Definition as_document (n : node) : list node :=
  match n with
  | NavigableString _ => [n]
  | Tag name _ contents =>
      if str_eqb name (lit "[document]") then contents else [n]
  end.

(** What stays of the contents of a tag *)
Definition kept (ns : list node) : list node :=
  flat_map (fun m => if non_content m then [] else [decompose_all m]) ns.

Definition content_only (ns : list node) : Prop :=
  Forall (fun d => non_content d = false) ns.

End ExtractorSpec.

(** ** Inputs of the examples *)

Module Inputs.

Import Translator TitleExtractor.

(** A top-level link followed by an indented one *)
Definition indented_doc : str :=
  lit "- [A](https://a.example/x)" ++ [NL] ++
  lit "  - [B](http://b.example/y)" ++ [NL].

(** A page with an empty first heading: <h1></h1><h1>Foo</h1> and
    <title>T</title> *)
Definition two_h1_soup : list node :=
  [ Tag (lit "h1") [];
    Tag (lit "h1") [NavigableString (lit "Foo")];
    Tag (lit "title") [NavigableString (lit "T")] ].

(** A backend that fails on every call *)
Definition failing_backend : list str -> str -> outcome str :=
  fun _ _ => Raise (Exception (lit "TranslationNotFound")).

(** A line of exactly SAFETY_MARGIN characters, and one a character longer *)
Definition margin_line : str := repeat 97%N 3500.
Definition long_line : str := repeat 97%N 3501.

End Inputs.
Import Inputs.

Module FurtherInputs.

Import Translator.

(** A text of two paragraphs, the first of two lines *)
Definition two_paragraphs : str :=
  lit "a" ++ [NL] ++ lit "b" ++ [NL; NL] ++ lit "c".

(** A converter whose Markdown has a run of four newlines after two
    blanks: "a  ", four newlines, "b" *)
Definition markdown_blank_ex (_ : str) : str :=
  lit "a  " ++ repeat NL 4 ++ lit "b".

(** A backend that fails on the chunk "b" and answers "T" to the others *)
Definition flaky_backend : list str -> str -> outcome str :=
  fun _ chunk =>
    if TitleExtractor.str_eqb chunk (lit "b")
    then Raise (Exception (lit "TranslationNotFound"))
    else Return (lit "T").

(** A backend interrupted at every call *)
Definition interrupted_backend : list str -> str -> outcome str :=
  fun _ _ => Raise (BaseExceptionOnly (lit "KeyboardInterrupt")).

(** A page with a navigation bar, an old content container and an article *)
Definition page_with_article : list ContentExtractor.node :=
  let Tag := ContentExtractor.Tag in
  let NavigableString := ContentExtractor.NavigableString in
  [Tag (lit "html") []
     [Tag (lit "nav") [] [NavigableString (lit "menu")];
      Tag (lit "div") [lit "it-MdContent"] [NavigableString (lit "old")];
      Tag (lit "article") []
        [Tag (lit "p") [] [NavigableString (lit "text")]]]].

End FurtherInputs.

(** * Properties *)

(** ** Facts about the string operations *)

Section StringFacts.

Lemma dropwhile_decomp (p : char -> bool) (s : str) :
  exists w, s = w ++ dropwhile p s /\ forallb p w = true.
Proof.
  induction s as [|c s [w [Hs Hw]]]; simpl.
  - exists []. split; reflexivity.
  - destruct (p c) eqn:Hc.
    + exists (c :: w). simpl. rewrite Hc, Hw. split; [f_equal; exact Hs | reflexivity].
    + exists []. split; reflexivity.
Qed.

Lemma dropwhile_head (p : char -> bool) (s : str) c r :
  dropwhile p s = c :: r -> p c = false.
Proof.
  induction s as [|x s IH]; simpl; [discriminate|].
  destruct (p x) eqn:Hx; [exact IH|].
  intros [= <- <-]. exact Hx.
Qed.

Lemma dropwhile_fix (p : char -> bool) (s : str) :
  dropwhile p (dropwhile p s) = dropwhile p s.
Proof.
  destruct (dropwhile p s) as [|c r] eqn:E; [reflexivity|].
  simpl. rewrite (dropwhile_head _ _ _ _ E). reflexivity.
Qed.

Lemma dropwhile_all (p : char -> bool) (w s : str) :
  forallb p w = true -> dropwhile p (w ++ s) = dropwhile p s.
Proof.
  induction w as [|c w IH]; simpl; [reflexivity|].
  intros H. apply andb_prop in H as [Hc Hw]. rewrite Hc. auto.
Qed.

Lemma dropwhile_stop (p : char -> bool) (a : str) c (b : str) :
  p c = false -> dropwhile p (a ++ c :: b) = dropwhile p a ++ c :: b.
Proof.
  intros Hc. induction a as [|x a IH]; simpl.
  - rewrite Hc. reflexivity.
  - destruct (p x); [exact IH | reflexivity].
Qed.

(** [rstrip] cuts a run of whitespace off the end. *)
Lemma rstrip_decomp (s : str) :
  exists w, s = rstrip s ++ w /\ forallb isspace w = true.
Proof.
  unfold rstrip.
  destruct (dropwhile_decomp isspace (rev s)) as [w [Hs Hw]].
  exists (rev w). split.
  - rewrite <- rev_app_distr, <- Hs, rev_involutive. reflexivity.
  - rewrite forallb_forall in *. intros x Hx. apply Hw, in_rev, Hx.
Qed.

Lemma rstrip_last (s r : str) c :
  rstrip s = r ++ [c] -> isspace c = false.
Proof.
  unfold rstrip. intros H.
  apply (f_equal (@rev _)) in H.
  rewrite rev_involutive, rev_app_distr in H. simpl in H.
  exact (dropwhile_head _ _ _ _ H).
Qed.

Lemma rstrip_stop (a : str) c (b : str) :
  isspace c = false -> rstrip (a ++ c :: b) = a ++ c :: rstrip b.
Proof.
  intros Hc. unfold rstrip.
  replace (rev (a ++ c :: b)) with (rev b ++ c :: rev a)
    by (rewrite rev_app_distr; simpl; rewrite <- app_assoc; reflexivity).
  rewrite (dropwhile_stop _ _ _ _ Hc), rev_app_distr. simpl.
  rewrite rev_involutive, <- app_assoc. reflexivity.
Qed.

Lemma strip_decomp (s : str) :
  exists w1 w2, s = w1 ++ strip s ++ w2
                /\ forallb isspace w1 = true /\ forallb isspace w2 = true.
Proof.
  unfold strip, lstrip.
  destruct (dropwhile_decomp isspace s) as [w1 [Hs H1]].
  destruct (rstrip_decomp (dropwhile isspace s)) as [w2 [Hr H2]].
  exists w1, w2. split; [|split; assumption].
  rewrite <- Hr. exact Hs.
Qed.

Lemma strip_head (s r : str) c : strip s = c :: r -> isspace c = false.
Proof.
  unfold strip. intros H.
  destruct (rstrip_decomp (lstrip s)) as [w [Hs _]].
  rewrite H in Hs. simpl in Hs.
  exact (dropwhile_head _ _ _ _ Hs).
Qed.

Lemma strip_last (s r : str) c : strip s = r ++ [c] -> isspace c = false.
Proof. unfold strip. apply rstrip_last. Qed.

Lemma lstrip_strip (s : str) : lstrip (strip s) = strip s.
Proof.
  destruct (strip s) as [|c r] eqn:E; [reflexivity|].
  unfold lstrip. simpl. rewrite (strip_head _ _ _ E). reflexivity.
Qed.

(** Stripping a text that begins and ends with visible characters, with
    whitespace around it, gives the text back. *)
Lemma strip_core (w1 : str) c (m : str) d (w2 : str) :
  forallb isspace w1 = true -> forallb isspace w2 = true ->
  isspace c = false -> isspace d = false ->
  strip (w1 ++ (c :: m ++ [d]) ++ w2) = c :: m ++ [d].
Proof.
  intros H1 H2 Hc Hd. unfold strip, lstrip.
  rewrite (dropwhile_all _ _ _ H1). simpl. rewrite Hc.
  replace (c :: (m ++ [d]) ++ w2) with ((c :: m) ++ d :: w2)
    by (simpl; rewrite <- app_assoc; reflexivity).
  rewrite (rstrip_stop _ _ _ Hd).
  replace (rstrip w2) with (@nil char); [reflexivity|].
  unfold rstrip.
  assert (H : forallb isspace (rev w2) = true).
  { rewrite forallb_forall in *. intros x Hx. apply H2, in_rev, Hx. }
  pose proof (dropwhile_all isspace (rev w2) [] H) as E.
  rewrite app_nil_r in E. rewrite E. reflexivity.
Qed.

End StringFacts.

(** ** LinkSource *)

Section LinkSourceFacts.

Import LinkSource.

(** The indentation is measured on the line after [strip]: it is 0. *)
Lemma indent_of_stripped_line (line : str) :
  (Z.of_nat (length (strip line))
   - Z.of_nat (length (lstrip (strip line))) = 0)%Z.
Proof. rewrite lstrip_strip. lia. Qed.

Lemma loop_body_parent_None (links : list LinkItem) (line : str) :
  Forall (fun it => parent it = None) links ->
  Forall (fun it => parent it = None) (loop_body links line).
Proof.
  intros H. unfold loop_body.
  destruct (negb _); [exact H|].
  destruct (re_search_link (strip line)) as [[t u]|]; [|exact H].
  rewrite indent_of_stripped_line.
  apply Forall_app. split; [exact H|].
  constructor; [|constructor].
  simpl. destruct links; reflexivity.
Qed.

(** No link ever gets a parent, whatever the indentation of its line. *)
Lemma read_links_parent_None (doc : str) :
  Forall (fun it => parent it = None) (read_links_from_docs_readme doc).
Proof.
  unfold read_links_from_docs_readme.
  assert (G : forall ls acc,
             Forall (fun it => parent it = None) acc ->
             Forall (fun it => parent it = None) (fold_left loop_body ls acc)).
  { induction ls as [|l ls IH]; intros acc Hacc; simpl; [exact Hacc|].
    apply IH, loop_body_parent_None, Hacc. }
  apply G. constructor.
Qed.

End LinkSourceFacts.

(** *** The matcher finds the links the specification describes *)

Section MatcherFacts.

Import LinkSource LinkSpec.

Lemma eqc_eq (a b : char) : eqc a b = true <-> a = b.
Proof. apply N.eqb_eq. Qed.

Lemma eqc_refl (a : char) : eqc a a = true.
Proof. apply N.eqb_refl. Qed.

Lemma strip_prefix_sound (p s r : str) :
  strip_prefix p s = Some r -> s = p ++ r.
Proof.
  revert s. induction p as [|a p IH]; intros s; simpl.
  - intros [= ->]. reflexivity.
  - destruct s as [|b s]; [discriminate|].
    destruct (eqc a b) eqn:E; [|discriminate].
    apply eqc_eq in E as ->. intros H. f_equal. apply IH, H.
Qed.

Lemma strip_prefix_app (p r : str) : strip_prefix p (p ++ r) = Some r.
Proof.
  induction p as [|a p IH]; simpl; [reflexivity|].
  rewrite eqc_refl. exact IH.
Qed.

Lemma take_url_body_sound (s body rest : str) :
  take_url_body s = (body, rest) ->
  s = body ++ rest /\ ~ In RPAREN body
  /\ (rest = [] \/ exists r, rest = RPAREN :: r).
Proof.
  revert body rest. induction s as [|c s IH]; intros body rest; simpl.
  - intros [= <- <-]. repeat split; auto.
  - destruct (eqc c RPAREN) eqn:E.
    + apply eqc_eq in E as ->. intros [= <- <-].
      repeat split; auto. right. eexists. reflexivity.
    + destruct (take_url_body s) as [b r].
      intros [= <- <-]. destruct (IH _ _ eq_refl) as (Hs & Hb & Hr).
      repeat split; [simpl; f_equal; exact Hs | | exact Hr].
      intros [->|Hin]; [|exact (Hb Hin)].
      rewrite eqc_refl in E. discriminate.
Qed.

Lemma take_url_body_complete (body post : str) :
  ~ In RPAREN body ->
  take_url_body (body ++ RPAREN :: post) = (body, RPAREN :: post).
Proof.
  induction body as [|c body IH]; simpl; intros H.
  - reflexivity.
  - destruct (eqc c RPAREN) eqn:E.
    + apply eqc_eq in E. exfalso. apply H. left. exact E.
    + rewrite IH; [reflexivity|]. intros Hin. apply H. right. exact Hin.
Qed.

Lemma match_after_scheme_sound (scheme s u : str) :
  match_after_scheme scheme s = Some u ->
  exists body post,
    s = lit "://" ++ body ++ RPAREN :: post /\ body <> [] /\ ~ In RPAREN body
    /\ u = scheme ++ lit "://" ++ body.
Proof.
  unfold match_after_scheme.
  destruct (strip_prefix (lit "://") s) as [r|] eqn:Hp; [|discriminate].
  apply strip_prefix_sound in Hp.
  destruct (take_url_body r) as [[|c body] [|x rest]] eqn:Ht; try discriminate.
  intros [= <-].
  destruct (take_url_body_sound _ _ _ Ht) as (Hr & Hb & [Hx|[r' Hx]]);
    [discriminate|].
  injection Hx as -> ->.
  exists (c :: body), r'. subst. repeat split; auto. discriminate.
Qed.

Lemma match_after_scheme_complete (scheme body post : str) :
  body <> [] -> ~ In RPAREN body ->
  match_after_scheme scheme (lit "://" ++ body ++ RPAREN :: post)
  = Some (scheme ++ lit "://" ++ body).
Proof.
  intros Hne Hb. unfold match_after_scheme.
  rewrite strip_prefix_app, (take_url_body_complete _ post Hb).
  destruct body; [contradiction|reflexivity].
Qed.

Lemma match_url_sound (s u : str) :
  match_url s = Some u ->
  exists post, s = u ++ RPAREN :: post /\ http_url u.
Proof.
  unfold match_url.
  destruct (strip_prefix (lit "http") s) as [r|] eqn:Hp; [|discriminate].
  apply strip_prefix_sound in Hp. subst s.
  assert (K : forall scheme r0 u0,
             match_after_scheme scheme r0 = Some u0 ->
             exists body post, scheme ++ r0 = u0 ++ RPAREN :: post
                               /\ body <> [] /\ ~ In RPAREN body
                               /\ u0 = scheme ++ lit "://" ++ body).
  { intros scheme r0 u0 H.
    destruct (match_after_scheme_sound _ _ _ H) as (body & post & -> & Hne & Hb & ->).
    exists body, post. repeat split; auto.
    rewrite <- !app_assoc. reflexivity. }
  destruct (strip_prefix (lit "s") r) as [r'|] eqn:Hs.
  - apply strip_prefix_sound in Hs. subst r.
    destruct (match_after_scheme (lit "https") r') as [u'|] eqn:Hm.
    + intros [= <-].
      destruct (K _ _ _ Hm) as (body & post & Heq & Hne & Hb & Hu).
      exists post. split.
      * rewrite <- Heq. reflexivity.
      * exists body. repeat split; auto.
    + intros Hm'.
      destruct (K _ _ _ Hm') as (body & post & Heq & Hne & Hb & Hu).
      exists post. split; [exact Heq|].
      exists body. repeat split; auto.
  - intros Hm'.
    destruct (K _ _ _ Hm') as (body & post & Heq & Hne & Hb & Hu).
    exists post. split; [exact Heq|].
    exists body. repeat split; auto.
Qed.

Lemma match_url_complete (u post : str) :
  http_url u -> match_url (u ++ RPAREN :: post) = Some u.
Proof.
  intros (body & Hne & Hb & [-> | ->]); unfold match_url.
  - change ((lit "http://" ++ body) ++ RPAREN :: post)
      with (lit "http" ++ (lit "://" ++ body) ++ RPAREN :: post).
    rewrite strip_prefix_app. simpl strip_prefix.
    cbv iota. rewrite <- app_assoc.
    rewrite (match_after_scheme_complete (lit "http") body post Hne Hb).
    reflexivity.
  - change ((lit "https://" ++ body) ++ RPAREN :: post)
      with (lit "http" ++ lit "s" ++ (lit "://" ++ body) ++ RPAREN :: post).
    rewrite strip_prefix_app, strip_prefix_app.
    change ((lit "://" ++ body) ++ RPAREN :: post)
      with (lit "://" ++ body ++ RPAREN :: post).
    rewrite (match_after_scheme_complete (lit "https") body post Hne Hb).
    reflexivity.
Qed.

Lemma match_close_sound (s u : str) :
  match_close s = Some u ->
  exists post, s = [RBRACK; LPAREN] ++ u ++ RPAREN :: post /\ http_url u.
Proof.
  unfold match_close.
  destruct (strip_prefix (lit "](") s) as [r|] eqn:Hp; [|discriminate].
  apply strip_prefix_sound in Hp. subst s. intros H.
  destruct (match_url_sound _ _ H) as (post & -> & Hu).
  exists post. split; [reflexivity | exact Hu].
Qed.

Lemma match_close_complete (u post : str) :
  http_url u ->
  match_close ([RBRACK; LPAREN] ++ u ++ RPAREN :: post) = Some u.
Proof.
  intros Hu. unfold match_close.
  change [RBRACK; LPAREN] with (lit "](").
  rewrite strip_prefix_app. apply match_url_complete, Hu.
Qed.

Lemma match_title_sound (s t u : str) :
  match_title s = Some (t, u) ->
  exists post,
    s = t ++ [RBRACK; LPAREN] ++ u ++ RPAREN :: post
    /\ ~ In NL t /\ http_url u.
Proof.
  revert t u. induction s as [|c s IH]; intros t u.
  - simpl. discriminate.
  - cbn [match_title].
    destruct (match_close (c :: s)) as [u'|] eqn:Hc.
    + intros [= <- <-]. destruct (match_close_sound _ _ Hc) as (post & Hs & Hu).
      exists post. repeat split; auto.
    + destruct (eqc c NL) eqn:E; [discriminate|].
      destruct (match_title s) as [[t' u']|]; [|discriminate].
      intros [= <- <-]. destruct (IH _ _ eq_refl) as (post & Hs & Ht & Hu).
      exists post. repeat split; auto.
      * simpl. f_equal. exact Hs.
      * intros [Hcn|Hin]; [|exact (Ht Hin)].
        rewrite Hcn, eqc_refl in E. discriminate.
Qed.

Lemma match_title_complete (t u post : str) :
  ~ In NL t -> http_url u ->
  exists t' u',
    match_title (t ++ [RBRACK; LPAREN] ++ u ++ RPAREN :: post) = Some (t', u').
Proof.
  intros Ht Hu. induction t as [|c t IH].
  - exists [], u.
    change ([] ++ [RBRACK; LPAREN] ++ u ++ RPAREN :: post)
      with (RBRACK :: LPAREN :: u ++ RPAREN :: post).
    cbn [match_title].
    change (RBRACK :: LPAREN :: u ++ RPAREN :: post)
      with ([RBRACK; LPAREN] ++ u ++ RPAREN :: post).
    rewrite (match_close_complete u post Hu). reflexivity.
  - change ((c :: t) ++ [RBRACK; LPAREN] ++ u ++ RPAREN :: post)
      with (c :: (t ++ [RBRACK; LPAREN] ++ u ++ RPAREN :: post)).
    cbn [match_title].
    destruct (match_close _) as [u'|]; [eexists _, _; reflexivity|].
    destruct (eqc c NL) eqn:E.
    + apply eqc_eq in E. exfalso. apply Ht. left. exact E.
    + destruct IH as (t' & u' & ->); [intros Hin; apply Ht; right; exact Hin|].
      eexists _, _. reflexivity.
Qed.

(** Soundness: what [re.search] returns is a link of the line. *)
Lemma re_search_link_sound (s t u : str) :
  re_search_link s = Some (t, u) -> link_in s t u.
Proof.
  induction s as [|c s IH]; simpl; [discriminate|].
  destruct (eqc c LBRACK) eqn:E.
  - destruct (match_title s) as [[t' u']|] eqn:Hm.
    + intros [= <- <-]. apply eqc_eq in E as ->.
      destruct (match_title_sound _ _ _ Hm) as (post & -> & Ht & Hu).
      exists [], post. repeat split; auto.
    + intros H. destruct (IH H) as (pre & post & -> & Ht & Hu).
      exists (c :: pre), post. repeat split; auto.
  - intros H. destruct (IH H) as (pre & post & -> & Ht & Hu).
    exists (c :: pre), post. repeat split; auto.
Qed.

(** Completeness: a line with a link in it is matched. *)
Lemma re_search_link_complete (s t u : str) :
  link_in s t u -> exists t' u', re_search_link s = Some (t', u').
Proof.
  intros (pre & post & -> & Ht & Hu).
  induction pre as [|c pre IH].
  - simpl. destruct (match_title_complete t u post Ht Hu) as (t' & u' & E).
    simpl in E. rewrite E. eexists _, _. reflexivity.
  - simpl. destruct (if eqc c LBRACK then _ else None) as [[t' u']|].
    + eexists _, _. reflexivity.
    + exact IH.
Qed.

End MatcherFacts.

(** *** The loop keeps exactly the valid link lines *)

Section LinkLines.

Import LinkSource LinkSpec.

Lemma startswith_dash_marker (line : str) :
  startswith (strip line) (lit "-") = true <-> first_nonspace_is_marker line.
Proof.
  split.
  - unfold startswith. intros H.
    destruct (strip_prefix (lit "-") (strip line)) as [r|] eqn:Hp;
      [|discriminate].
    apply strip_prefix_sound in Hp.
    destruct (strip_decomp line) as (w1 & w2 & Hl & H1 & _).
    exists w1, (r ++ w2). split; [|exact H1].
    rewrite Hl at 1. rewrite Hp. reflexivity.
  - intros (ws & rest & -> & Hws).
    unfold strip, lstrip. rewrite (dropwhile_all _ _ _ Hws).
    change (dropwhile isspace (DASH :: rest)) with (DASH :: rest).
    pose proof (rstrip_stop [] DASH rest eq_refl) as E. simpl app in E.
    rewrite E. reflexivity.
Qed.

Lemma link_in_of_strip (line t u : str) :
  link_in (strip line) t u -> link_in line t u.
Proof.
  intros (pre & post & Hs & Ht & Hu).
  destruct (strip_decomp line) as (w1 & w2 & Hl & _ & _).
  exists (w1 ++ pre), (post ++ w2). split; [|split; assumption].
  rewrite Hl at 1. rewrite Hs. rewrite <- !app_assoc. reflexivity.
Qed.

Lemma link_in_to_strip (line t u : str) :
  link_in line t u -> link_in (strip line) t u.
Proof.
  intros (pre & post & -> & Ht & Hu).
  exists (lstrip pre), (rstrip post). split; [|split; assumption].
  unfold strip. unfold lstrip at 1.
  change (pre ++ [LBRACK] ++ t ++ [RBRACK; LPAREN] ++ u ++ [RPAREN] ++ post)
    with (pre ++ LBRACK :: (t ++ [RBRACK; LPAREN] ++ u ++ [RPAREN] ++ post)).
  rewrite (dropwhile_stop isspace pre LBRACK _ eq_refl).
  fold (lstrip pre).
  replace (lstrip pre ++ LBRACK :: t ++ [RBRACK; LPAREN] ++ u ++ [RPAREN] ++ post)
    with ((lstrip pre ++ LBRACK :: t ++ [RBRACK; LPAREN] ++ u) ++ RPAREN :: post)
    by (rewrite <- !app_assoc; simpl; rewrite <- !app_assoc; reflexivity).
  rewrite (rstrip_stop _ RPAREN post eq_refl).
  rewrite <- !app_assoc. simpl. rewrite <- !app_assoc. reflexivity.
Qed.

(** One turn of the loop: the line is skipped when it is not a valid link
    line, and contributes one item, a link of that line, when it is. *)
Lemma loop_body_cases (links : list LinkItem) (line : str) :
  (~ valid_link_line line /\ loop_body links line = links)
  \/ (valid_link_line line
      /\ exists it, loop_body links line = links ++ [it]
                    /\ link_in line (title it) (url it)).
Proof.
  unfold loop_body.
  destruct (startswith (strip line) (lit "-")) eqn:Hd; simpl negb; cbv iota.
  - apply startswith_dash_marker in Hd.
    destruct (re_search_link (strip line)) as [[t u]|] eqn:Hr.
    + right. apply re_search_link_sound, link_in_of_strip in Hr.
      split; [split; [exact Hd | exists t, u; exact Hr]|].
      eexists. split; [reflexivity | exact Hr].
    + left. split; [|reflexivity].
      intros [_ (t & u & Hl)].
      apply link_in_to_strip, re_search_link_complete in Hl.
      destruct Hl as (t' & u' & Hl). congruence.
  - left. split; [|reflexivity].
    intros [Hm _]. apply startswith_dash_marker in Hm. congruence.
Qed.

Lemma fold_loop_body (ls : list str) (acc : list LinkItem) :
  exists vs items,
    valid_lines ls vs
    /\ fold_left loop_body ls acc = acc ++ items
    /\ Forall2 (fun line it => link_in line (title it) (url it)) vs items.
Proof.
  revert acc. induction ls as [|l ls IH]; intros acc; simpl.
  - exists [], []. repeat split; [constructor | rewrite app_nil_r; reflexivity
                                  | constructor].
  - destruct (loop_body_cases acc l) as [[Hn ->] | [Hv (it & -> & Hl)]].
    + destruct (IH acc) as (vs & items & Hvs & Hf & H2).
      exists vs, items. repeat split; auto. constructor; assumption.
    + destruct (IH (acc ++ [it])) as (vs & items & Hvs & Hf & H2).
      exists (l :: vs), (it :: items). repeat split.
      * constructor; assumption.
      * rewrite Hf, <- app_assoc. reflexivity.
      * constructor; assumption.
Qed.

(** C7: the link parser returns exactly one item per valid link line (a
    line whose first non-space character is "-" and which contains a
    [title](url) pattern with an http or https URL), in document order: the
    valid lines [vs] of the document and the items returned correspond one
    to one, each item being a link of its line, so there are as many items
    as valid lines. *)
Theorem read_links_one_per_valid_line (doc : str) :
  exists vs,
    valid_lines (file_lines doc) vs
    /\ Forall2 (fun line it => link_in line (title it) (url it))
               vs (read_links_from_docs_readme doc)
    /\ length (read_links_from_docs_readme doc) = length vs.
Proof.
  unfold read_links_from_docs_readme.
  destruct (fold_loop_body (file_lines doc) []) as (vs & items & Hvs & Hf & H2).
  simpl in Hf. rewrite Hf.
  exists vs. repeat split; auto.
  symmetry. eapply Forall2_length, H2.
Qed.

(** C1 (the code departs from the claim): on a document whose second link
    line is indented and follows an already parsed link, the claim asks
    for parent = title of the first link ("A"); the code returns parent =
    None, because the indentation is measured after the line was stripped.
    On every document, no item gets a parent at all. *)
Theorem indented_link_gets_no_parent :
  read_links_from_docs_readme indented_doc =
  [ mkLinkItem (lit "A") (lit "https://a.example/x") None;
    mkLinkItem (lit "B") (lit "http://b.example/y") None ]
  /\ forall doc,
       Forall (fun it => parent it = None) (read_links_from_docs_readme doc).
Proof.
  split.
  - vm_compute. reflexivity.
  - exact read_links_parent_None.
Qed.

End LinkLines.

(** ** Facts about [split] and [join] *)

Section SplitFacts.

Lemma split_unfold (c : char) (sep s : str) :
  split (c :: sep) s =
  match find_sep (c :: sep) s with
  | Some (before, after) => before :: split (c :: sep) after
  | None => [s]
  end.
Proof.
  rewrite split_equation_2.
  generalize (inspect (find_sep (c :: sep) s)).
  intros [[[b a]|] e]; cbn [split_unfold_clause_2]; rewrite e; reflexivity.
Qed.

Lemma split_not_nil (sep s : str) : split sep s <> [].
Proof.
  destruct sep as [|c sep].
  - rewrite split_equation_1. discriminate.
  - rewrite split_unfold. destruct (find_sep (c :: sep) s) as [[b a]|];
      discriminate.
Qed.

Lemma find_sep_sound (sep s before after : str) :
  find_sep sep s = Some (before, after) -> s = before ++ sep ++ after.
Proof.
  revert before after. induction s as [|x s IH]; intros before after.
  - simpl. destruct (strip_prefix sep []) as [r|] eqn:Hp; [|discriminate].
    intros [= <- <-]. apply strip_prefix_sound in Hp. exact Hp.
  - cbn [find_sep].
    destruct (strip_prefix sep (x :: s)) as [r|] eqn:Hp.
    + intros [= <- <-]. apply strip_prefix_sound in Hp. exact Hp.
    + destruct (find_sep sep s) as [[b a]|]; [|discriminate].
      intros [= <- <-]. simpl. f_equal. apply IH. reflexivity.
Qed.

Lemma join_cons (sep p : str) (ps : list str) :
  ps <> [] -> join sep (p :: ps) = p ++ sep ++ join sep ps.
Proof. destruct ps; [contradiction | reflexivity]. Qed.

Lemma join_snoc (sep : str) (ps : list str) (p : str) :
  ps <> [] -> join sep (ps ++ [p]) = join sep ps ++ sep ++ p.
Proof.
  induction ps as [|q ps IH]; [contradiction|]. intros _.
  destruct ps as [|q' ps].
  - reflexivity.
  - change ((q :: q' :: ps) ++ [p]) with (q :: ((q' :: ps) ++ [p])).
    rewrite join_cons by (destruct ps; discriminate).
    rewrite IH by discriminate.
    rewrite (join_cons sep q (q' :: ps)) by discriminate.
    rewrite <- !app_assoc. reflexivity.
Qed.

(** Joining the pieces of a split gives the text back. *)
Lemma join_split (c : char) (sep s : str) :
  join (c :: sep) (split (c :: sep) s) = s.
Proof.
  remember (length s) as n eqn:Hn. revert s Hn.
  induction n as [n IH] using lt_wf_ind. intros s Hn.
  rewrite split_unfold.
  destruct (find_sep (c :: sep) s) as [[b a]|] eqn:Hf; [|reflexivity].
  rewrite join_cons by apply split_not_nil.
  rewrite (IH (length a)); [|subst n; eapply find_sep_shorter; eauto|reflexivity].
  symmetry. apply find_sep_sound, Hf.
Qed.

(** Splitting on a single character, one character at a time *)

Lemma split_char_nil (c : char) : split [c] [] = [[]].
Proof. rewrite split_unfold. reflexivity. Qed.

Lemma split_char_cons (c x : char) (s : str) :
  split [c] (x :: s) =
  if eqc c x then [] :: split [c] s else cons_head x (split [c] s).
Proof.
  rewrite split_unfold. cbn [find_sep strip_prefix].
  destruct (eqc c x); [reflexivity|].
  rewrite (split_unfold c [] s).
  destruct (find_sep [c] s) as [[b a]|]; reflexivity.
Qed.

Lemma cons_head_app (x : char) (ps qs : list str) :
  ps <> [] -> cons_head x (ps ++ qs) = cons_head x ps ++ qs.
Proof. destruct ps; [contradiction | reflexivity]. Qed.

Lemma split_char_snoc_sep (c : char) (s : str) :
  split [c] (s ++ [c]) = split [c] s ++ [[]].
Proof.
  induction s as [|x s IH].
  - simpl. rewrite split_char_cons, eqc_refl, split_char_nil. reflexivity.
  - simpl. rewrite !split_char_cons, IH.
    destruct (eqc c x); [reflexivity|].
    apply cons_head_app, split_not_nil.
Qed.

Lemma split_char_snoc_other (c x : char) (s : str) :
  eqc c x = false ->
  exists front z, split [c] (s ++ [x]) = front ++ [z ++ [x]].
Proof.
  intros Hx. induction s as [|y s (front & z & IH)].
  - exists [], []. simpl. rewrite split_char_cons, Hx, split_char_nil.
    reflexivity.
  - simpl. rewrite split_char_cons, IH. destruct (eqc c y).
    + exists ([] :: front), z. reflexivity.
    + destruct front as [|f front].
      * exists [], (y :: z). reflexivity.
      * exists ((y :: f) :: front), z. reflexivity.
Qed.

Lemma split_char_trailing (c : char) (w s : str) :
  forallb (eqc c) w = true ->
  split [c] (s ++ w) = split [c] s ++ map (fun _ => []) w.
Proof.
  revert s. induction w as [|x w IH]; intros s Hw.
  - simpl. rewrite !app_nil_r. reflexivity.
  - simpl in Hw. apply andb_prop in Hw as [Hx Hw].
    apply eqc_eq in Hx. subst x.
    change (s ++ c :: w) with (s ++ [c] ++ w).
    rewrite app_assoc, IH by exact Hw.
    rewrite split_char_snoc_sep, <- app_assoc. reflexivity.
Qed.

End SplitFacts.

(** ** Persister *)

Section PersisterFacts.

Import Persister PersisterSpec.

Lemma rstrip_char_decomp (c : char) (s : str) :
  exists w, s = rstrip_char c s ++ w /\ forallb (eqc c) w = true.
Proof.
  unfold rstrip_char.
  destruct (dropwhile_decomp (eqc c) (rev s)) as [w [Hs Hw]].
  exists (rev w). split.
  - rewrite <- rev_app_distr, <- Hs, rev_involutive. reflexivity.
  - rewrite forallb_forall in *. intros x Hx. apply Hw, in_rev, Hx.
Qed.

Lemma rstrip_char_last (c : char) (s r : str) (x : char) :
  rstrip_char c s = r ++ [x] -> eqc c x = false.
Proof.
  unfold rstrip_char. intros H.
  apply (f_equal (@rev _)) in H.
  rewrite rev_involutive, rev_app_distr in H. simpl in H.
  exact (dropwhile_head _ _ _ _ H).
Qed.

Lemma filter_nonempty_blank (w : str) :
  filter nonempty (map (fun _ : char => @nil char) w) = [].
Proof. induction w; simpl; auto. Qed.

(** The id is the last non-empty "/"-separated piece of the URL text. *)
Lemma qiita_id_last_nonempty_piece (url : str) :
  qiita_id_from_url url = last_nonempty_piece url.
Proof.
  unfold qiita_id_from_url, last_nonempty_piece.
  destruct (rstrip_char_decomp SLASH url) as (w & Hu & Hw).
  rewrite Hu at 2.
  rewrite (split_char_trailing SLASH w _ Hw), filter_app,
    filter_nonempty_blank, app_nil_r.
  destruct (rstrip_char SLASH url) as [|x0 core0] eqn:Hc.
  - rewrite split_char_nil. reflexivity.
  - destruct (@exists_last _ (x0 :: core0)) as (core & a & E);
      [discriminate|].
    rewrite E in *.
    destruct (split_char_snoc_other SLASH a core
                (rstrip_char_last _ _ _ _ Hc)) as (front & z & ->).
    rewrite filter_app. simpl filter.
    replace (nonempty (z ++ [a])) with true by (destruct z; reflexivity).
    rewrite !last_last. reflexivity.
Qed.

Lemma split_char_app_sep (c : char) (a b : str) :
  split [c] (a ++ c :: b) = split [c] a ++ split [c] b.
Proof.
  induction a as [|x a IH].
  - simpl. rewrite split_char_cons, eqc_refl, split_char_nil. reflexivity.
  - simpl. rewrite !split_char_cons, IH.
    destruct (eqc c x); [reflexivity|].
    apply cons_head_app, split_not_nil.
Qed.

Lemma last_app_nonempty {A : Type} (xs ys : list A) (d : A) :
  ys <> [] -> last (xs ++ ys) d = last ys d.
Proof.
  intros Hy. induction xs as [|x xs IH]; [reflexivity|].
  simpl. destruct (xs ++ ys) eqn:E; [|exact IH].
  apply app_eq_nil in E as [_ E]. contradiction.
Qed.

Lemma takewhile_all (p : char -> bool) (s : str) :
  forallb p s = true -> takewhile p s = s.
Proof.
  induction s as [|c s IH]; [reflexivity|]. simpl. intros H.
  apply andb_prop in H as [Hc H]. rewrite Hc, (IH H). reflexivity.
Qed.

(** The path of a URL without query and fragment is the end of the URL
    text, and begins with "/" when it is not empty. *)
Lemma url_path_suffix (url : str) :
  no_query_no_fragment url = true ->
  url_path url = url
  \/ url_path url = []
  \/ exists front rest, url = front ++ SLASH :: rest
                        /\ url_path url = SLASH :: rest.
Proof.
  unfold no_query_no_fragment, url_path. intros H.
  destruct (find_sep (lit "://") url) as [[pre rest]|] eqn:F.
  - apply find_sep_sound in F.
    destruct (dropwhile_decomp (fun c => negb (ends_authority c)) rest)
      as (w & Er & _).
    set (D := dropwhile (fun c => negb (ends_authority c)) rest) in *.
    assert (HD : forallb (fun c => negb (query_or_fragment c)) D = true).
    { rewrite F, Er, !forallb_app in H.
      apply andb_prop in H as [_ H]. apply andb_prop in H as [_ H].
      apply andb_prop in H as [_ H]. exact H. }
    rewrite (takewhile_all _ _ HD).
    destruct D as [|d D'] eqn:ED; [right; left; reflexivity|].
    right. right.
    assert (Hd : negb (ends_authority d) = false)
      by exact (dropwhile_head _ _ _ _ ED).
    simpl in HD. apply andb_prop in HD as [Hq _].
    unfold ends_authority in Hd.
    destruct (query_or_fragment d); [discriminate|].
    rewrite orb_false_r in Hd. apply negb_false_iff, eqc_eq in Hd. subst d.
    exists (pre ++ lit "://" ++ w), D'. split; [|reflexivity].
    rewrite F, Er, <- !app_assoc. reflexivity.
  - left. apply takewhile_all. exact H.
Qed.

(** For a URL without query and fragment whose path has a non-empty
    segment, the id is the last non-empty segment of the path. *)
Lemma qiita_id_last_path_segment (url : str) :
  no_query_no_fragment url = true ->
  last_nonempty_path_segment url <> [] ->
  qiita_id_from_url url = last_nonempty_path_segment url.
Proof.
  intros Hq Hs. rewrite qiita_id_last_nonempty_piece.
  unfold last_nonempty_path_segment in *.
  destruct (url_path_suffix url Hq) as [E|[E|(front & rest & Eu & E)]].
  - rewrite E. reflexivity.
  - rewrite E, split_char_nil in Hs. exfalso. apply Hs. reflexivity.
  - rewrite E in *. unfold last_nonempty_piece. rewrite Eu.
    rewrite split_char_app_sep, filter_app.
    rewrite split_char_cons, eqc_refl in Hs |- *.
    cbn [filter nonempty] in Hs |- *.
    apply last_app_nonempty. intros En. rewrite En in Hs.
    apply Hs. reflexivity.
Qed.

(** C9 as stated fails.  The parser returns the links of the two lines
    below; the first URL has an empty path, hence no path segment, and its
    file is named after the host; the last path segment of the second is
    abc123 and its file is named after the segment and the query. *)
Lemma last_path_segment_counterexample :
  let host := LinkSource.mkLinkItem (lit "Q") (lit "https://qiita.com") None in
  let query :=
    LinkSource.mkLinkItem (lit "A")
      (lit "https://qiita.com/items/abc123?utm=1") None in
  LinkSource.read_links_from_docs_readme
    (lit "- [Q](https://qiita.com)" ++ [NL]
     ++ lit "- [A](https://qiita.com/items/abc123?utm=1)" ++ [NL])
  = [host; query]
  /\ last_nonempty_path_segment (LinkSource.url host) = []
  /\ output_filename host = lit "qiita_qiita.com.md"
  /\ last_nonempty_path_segment (LinkSource.url query) = lit "abc123"
  /\ output_filename query = lit "qiita_abc123?utm=1.md"
  /\ output_filename host
     <> lit "qiita_" ++ last_nonempty_path_segment (LinkSource.url host)
        ++ lit ".md"
  /\ output_filename query
     <> lit "qiita_" ++ last_nonempty_path_segment (LinkSource.url query)
        ++ lit ".md".
Proof.
  cbv zeta. repeat split; try (vm_compute; reflexivity);
    vm_compute; discriminate.
Qed.

(** C9, amended: the output file of a link is named qiita_<id>.md, where
    <id> is the last non-empty piece of the whole URL text cut at its "/"
    characters (what follows the last "/" once the "/" at the end are
    removed).  When the URL has no query and no fragment and its path has a
    non-empty segment, <id> is the last non-empty path segment; for the
    URL https://example.com/items/abc123 the name is qiita_abc123.md. *)
Theorem output_filename_from_last_segment :
  (forall link : LinkSource.LinkItem,
     output_filename link =
     lit "qiita_" ++ last_nonempty_piece (LinkSource.url link) ++ lit ".md")
  /\ (forall link : LinkSource.LinkItem,
        no_query_no_fragment (LinkSource.url link) = true ->
        last_nonempty_path_segment (LinkSource.url link) <> [] ->
        output_filename link =
        lit "qiita_" ++ last_nonempty_path_segment (LinkSource.url link)
        ++ lit ".md")
  /\ output_filename
       (LinkSource.mkLinkItem (lit "Foo")
          (lit "https://example.com/items/abc123") None)
     = lit "qiita_abc123.md".
Proof.
  split; [|split].
  - intros link. unfold output_filename.
    rewrite qiita_id_last_nonempty_piece. reflexivity.
  - intros link Hq Hs. unfold output_filename.
    rewrite (qiita_id_last_path_segment _ Hq Hs). reflexivity.
  - vm_compute. reflexivity.
Qed.

(** A URL that ends with "/": the file is named after the last segment of
    its path. *)
Lemma output_filename_from_last_segment_witness :
  output_filename
    (LinkSource.mkLinkItem (lit "Foo")
       (lit "https://example.com/items/abc123/") None)
  = lit "qiita_" ++ lit "abc123" ++ lit ".md".
Proof.
  apply (proj1 (proj2 output_filename_from_last_segment)
           (LinkSource.mkLinkItem (lit "Foo")
              (lit "https://example.com/items/abc123/") None)).
  - vm_compute. reflexivity.
  - vm_compute. discriminate.
Defined.

End PersisterFacts.

(** ** MarkdownConverter *)

Section MarkdownFacts.

Import MarkdownConverter MarkdownSpec TextSpec FurtherInputs.

Lemma runs_below_3_sound (s : str) (k : nat) :
  runs_below_3 k s = true -> forall a b, s <> a ++ [NL; NL; NL] ++ b.
Proof.
  intros H a. revert s k H. induction a as [|x a IH]; intros s k H b E.
  - subst s. simpl in H.
    destruct k as [|[|k]]; simpl in H; discriminate.
  - subst s. simpl in H. destruct (eqc x NL).
    + apply andb_prop in H as [_ H]. exact (IH _ _ H b eq_refl).
    + exact (IH _ _ H b eq_refl).
Qed.

Lemma runs_below_3_emit (run : nat) (c : char) (r : str) :
  eqc c NL = false ->
  runs_below_3 0 (emit_run run ++ c :: r) = runs_below_3 0 r.
Proof.
  intros E. destruct run as [|[|[|run]]]; simpl; rewrite E; reflexivity.
Qed.

Lemma sub_newlines_runs (s : str) (run : nat) :
  runs_below_3 0 (sub_newlines_from run s) = true.
Proof.
  revert run. induction s as [|c s IH]; intros run; simpl.
  - destruct run as [|[|[|run]]]; reflexivity.
  - destruct (eqc c NL) eqn:E.
    + apply IH.
    + rewrite (runs_below_3_emit run c _ E). apply IH.
Qed.

Lemma rstrip_fix (s : str) : rstrip (rstrip s) = rstrip s.
Proof.
  unfold rstrip. rewrite rev_involutive, dropwhile_fix. reflexivity.
Qed.

Lemma not_space_not_NL (x : char) : isspace x = false -> eqc x NL = false.
Proof.
  intros H. destruct (eqc x NL) eqn:E; [|reflexivity].
  apply eqc_eq in E. subst x. discriminate.
Qed.

(** The scan up to a character other than a newline *)
Lemma sub_newlines_stop (a : str) (x : char) :
  eqc x NL = false ->
  forall run, exists p,
    forall s, sub_newlines_from run (a ++ x :: s)
              = p ++ x :: sub_newlines_from 0 s.
Proof.
  intros E. induction a as [|c a IH]; intros run.
  - exists (emit_run run). intros s. simpl. rewrite E. reflexivity.
  - simpl. destruct (eqc c NL).
    + destruct (IH (S run)) as [p Hp]. exists p. exact Hp.
    + destruct (IH 0) as [p Hp]. exists (emit_run run ++ c :: p).
      intros s. rewrite Hp, <- app_assoc. reflexivity.
Qed.

Lemma sub_newlines_run (k run : nat) (s : str) :
  sub_newlines_from run (repeat NL k ++ s) = sub_newlines_from (k + run) s.
Proof.
  revert run. induction k as [|k IH]; intros run; simpl; [reflexivity|].
  rewrite IH. f_equal. lia.
Qed.

(** A run of 3 or more newlines between two other characters becomes
    exactly two newlines. *)
Lemma sub_newlines_collapse (a : str) (x : char) (k : nat) (y : char) (b : str) :
  eqc x NL = false -> eqc y NL = false -> 3 <= k ->
  exists p q,
    sub_newlines (a ++ [x] ++ repeat NL k ++ [y] ++ b)
    = p ++ [x; NL; NL; y] ++ q.
Proof.
  intros Ex Ey Hk. unfold sub_newlines.
  destruct (sub_newlines_stop a x Ex 0) as [p Hp].
  exists p, (sub_newlines_from 0 b).
  change (a ++ [x] ++ repeat NL k ++ [y] ++ b)
    with (a ++ x :: (repeat NL k ++ y :: b)).
  rewrite Hp, sub_newlines_run. simpl. rewrite Ey.
  unfold emit_run. replace (3 <=? k + 0) with true
    by (symmetry; apply Nat.leb_le; lia).
  reflexivity.
Qed.

Lemma filter_emit_run (run : nat) : filter not_NL (emit_run run) = [].
Proof.
  unfold emit_run. destruct (3 <=? run); [reflexivity|].
  induction run as [|run IH]; [reflexivity | exact IH].
Qed.

Lemma filter_sub_newlines_from (s : str) (run : nat) :
  filter not_NL (sub_newlines_from run s) = filter not_NL s.
Proof.
  revert run. induction s as [|c s IH]; intros run; simpl.
  - apply filter_emit_run.
  - unfold not_NL at 2. destruct (eqc c NL) eqn:E; simpl.
    + apply IH.
    + rewrite filter_app, filter_emit_run. simpl.
      unfold not_NL at 1. rewrite E. simpl. f_equal. apply IH.
Qed.

(** *** The collapse, run by run *)

Lemma runs_head (t : str) (d : char) (n : nat) (rs : list (char * nat)) :
  runs t = (d, n) :: rs -> exists t', t = d :: t'.
Proof.
  destruct t as [|c t]; [discriminate|]. simpl.
  destruct (runs t) as [|[d' n'] rs'].
  - intros [= <- _ _]. exists t. reflexivity.
  - destruct (eqc c d') eqn:E.
    + apply eqc_eq in E. subst d'. intros [= <- _ _]. exists t. reflexivity.
    + intros [= <- _ _]. exists t. reflexivity.
Qed.

Lemma runs_newlines (k : nat) (t : str) :
  (forall t', t <> NL :: t') ->
  runs (repeat NL (S k) ++ t) = (NL, S k) :: runs t.
Proof.
  intros Ht. induction k as [|k IH].
  - cbn [repeat app runs].
    destruct (runs t) as [|[d n] rs] eqn:E; [reflexivity|].
    destruct (eqc NL d) eqn:Ed; [|reflexivity].
    apply eqc_eq in Ed. subst d.
    destruct (runs_head _ _ _ _ E) as (t' & Et). exfalso. exact (Ht t' Et).
  - change (repeat NL (S (S k)) ++ t) with (NL :: (repeat NL (S k) ++ t)).
    cbn [runs]. rewrite IH, eqc_refl. reflexivity.
Qed.

Lemma collapse_newlines_run (run : nat) (t : str) :
  (forall t', t <> NL :: t') ->
  collapse_newlines (repeat NL run ++ t) = emit_run run ++ collapse_newlines t.
Proof.
  intros Ht. destruct run as [|k]; [reflexivity|].
  unfold collapse_newlines. rewrite (runs_newlines k t Ht).
  cbn [flat_map]. f_equal.
Qed.

Lemma collapse_newlines_other (c : char) (s : str) :
  eqc c NL = false -> collapse_newlines (c :: s) = c :: collapse_newlines s.
Proof.
  intros Hc. unfold collapse_newlines. simpl.
  destruct (runs s) as [|[d n] rs].
  - simpl. unfold collapse_run. simpl. rewrite Hc. reflexivity.
  - destruct (eqc c d) eqn:E.
    + apply eqc_eq in E. subst d. simpl. unfold collapse_run. simpl.
      rewrite Hc. reflexivity.
    + simpl. unfold collapse_run at 1. simpl. rewrite Hc. reflexivity.
Qed.

Lemma repeat_newline_shift (k : nat) (s : str) :
  repeat NL k ++ NL :: s = repeat NL (S k) ++ s.
Proof.
  induction k as [|k IH]; [reflexivity|].
  change (repeat NL (S k) ++ NL :: s) with (NL :: (repeat NL k ++ NL :: s)).
  rewrite IH. reflexivity.
Qed.

(** The scan of the code and the collapse of the runs agree. *)
Lemma sub_newlines_from_collapse (s : str) (run : nat) :
  sub_newlines_from run s = collapse_newlines (repeat NL run ++ s).
Proof.
  revert run. induction s as [|c s IH]; intros run.
  - rewrite collapse_newlines_run by (intros t'; discriminate).
    simpl. rewrite app_nil_r. reflexivity.
  - cbn [sub_newlines_from]. destruct (eqc c NL) eqn:E.
    + apply eqc_eq in E. subst c. rewrite IH, repeat_newline_shift.
      reflexivity.
    + rewrite collapse_newlines_run.
      * rewrite (collapse_newlines_other c s E), (IH 0). reflexivity.
      * intros t' Et. injection Et as -> _. discriminate.
Qed.

Lemma sub_newlines_collapse_newlines (s : str) :
  sub_newlines s = collapse_newlines s.
Proof. apply (sub_newlines_from_collapse s 0). Qed.

(** A maximal run of 3 or more newlines becomes two, and what is on its
    two sides is collapsed on its own. *)
Lemma sub_newlines_at_run (a : str) (x : char) (k : nat) (y : char) (b : str) :
  eqc x NL = false -> eqc y NL = false -> 3 <= k ->
  sub_newlines ((a ++ [x]) ++ repeat NL k ++ y :: b)
  = sub_newlines (a ++ [x]) ++ [NL; NL] ++ sub_newlines (y :: b).
Proof.
  intros Ex Ey Hk. unfold sub_newlines.
  destruct (sub_newlines_stop a x Ex 0) as [p Hp].
  rewrite <- app_assoc. cbn [app]. rewrite !Hp, sub_newlines_run.
  cbn [sub_newlines_from]. rewrite Ey.
  unfold emit_run. replace (3 <=? k + 0) with true
    by (symmetry; apply Nat.leb_le; lia).
  cbn [Nat.leb repeat app]. rewrite <- app_assoc. reflexivity.
Qed.

Lemma In_sub_newlines (x : char) (s : str) :
  isspace x = false -> In x s -> In x (sub_newlines s).
Proof.
  intros Hx Hin.
  assert (H : In x (filter not_NL (sub_newlines s))).
  { unfold sub_newlines. rewrite filter_sub_newlines_from.
    apply filter_In. split; [exact Hin|].
    unfold not_NL. rewrite (not_space_not_NL x Hx). reflexivity. }
  apply filter_In in H. exact (proj1 H).
Qed.

(** Stripping a text that has visible characters on both sides of its
    middle strips the two sides only. *)
Lemma strip_around (X M Y : str) :
  (exists x, In x X /\ isspace x = false) ->
  (exists y, In y Y /\ isspace y = false) ->
  strip (X ++ M ++ Y) = lstrip X ++ M ++ rstrip Y.
Proof.
  intros (x & Hx & Vx) (y & Hy & Vy).
  apply in_split in Hx as (u & v & ->).
  apply in_split in Hy as (u' & v' & ->).
  unfold strip, lstrip.
  rewrite <- (app_assoc u (x :: v)). cbn [app].
  rewrite !(dropwhile_stop isspace u x _ Vx).
  replace (dropwhile isspace u ++ x :: v ++ M ++ u' ++ y :: v')
    with ((dropwhile isspace u ++ x :: v ++ M ++ u') ++ y :: v').
  - rewrite (rstrip_stop _ y v' Vy), (rstrip_stop u' y v' Vy).
    rewrite <- !app_assoc. cbn [app]. rewrite <- !app_assoc. reflexivity.
  - rewrite <- !app_assoc. cbn [app]. rewrite <- !app_assoc. reflexivity.
Qed.

(** C8: the text returned by [html_to_markdown_text] contains no run of 3
    or more newlines and has no leading or trailing whitespace (stripping
    it again changes nothing).  Every run of 3 or more newlines is
    collapsed to exactly 2: the text returned is the converter's output
    with each maximal run of 3 or more newlines replaced by two, stripped;
    and for every maximal run of 3 or more newlines of the converter's
    output with visible text before and after it, blanks next to the run
    or not, the text returned is the collapsed text before the run, two
    newlines, and the collapsed text after the run. *)
Theorem html_to_markdown_text_normalized
  (article_markdown : str -> str) (html : str) :
  let result := html_to_markdown_text article_markdown html in
  (forall a b, result <> a ++ [NL; NL; NL] ++ b)
  /\ lstrip result = result
  /\ rstrip result = result
  /\ (forall a x k y b,
        article_markdown html = a ++ [x] ++ repeat NL k ++ [y] ++ b ->
        isspace x = false -> isspace y = false -> 3 <= k ->
        exists p q, result = p ++ [x; NL; NL; y] ++ q)
  /\ (forall a k b,
        article_markdown html = a ++ repeat NL k ++ b -> 3 <= k ->
        (forall a', a <> a' ++ [NL]) -> (forall b', b <> NL :: b') ->
        (exists x, In x a /\ isspace x = false) ->
        (exists y, In y b /\ isspace y = false) ->
        result = lstrip (collapse_newlines a) ++ [NL; NL]
                 ++ rstrip (collapse_newlines b))
  /\ result = strip (collapse_newlines (article_markdown html)).
Proof.
  unfold html_to_markdown_text. cbv zeta.
  set (r := sub_newlines (article_markdown html)).
  repeat split.
  - intros a b E.
    destruct (strip_decomp r) as (w1 & w2 & Hr & _ & _).
    rewrite E in Hr.
    apply (runs_below_3_sound r 0 (sub_newlines_runs _ 0)
             (w1 ++ a) (b ++ w2)).
    rewrite Hr, <- !app_assoc. reflexivity.
  - apply lstrip_strip.
  - unfold strip. apply rstrip_fix.
  - intros a x k y b Hmd Hx Hy Hk. subst r. rewrite Hmd.
    destruct (sub_newlines_collapse a x k y b
                (not_space_not_NL x Hx) (not_space_not_NL y Hy) Hk)
      as (p & q & ->).
    exists (lstrip p), (rstrip q).
    unfold strip. unfold lstrip at 1.
    change (p ++ [x; NL; NL; y] ++ q) with (p ++ x :: ([NL; NL; y] ++ q)).
    rewrite (dropwhile_stop isspace p x _ Hx). fold (lstrip p).
    replace (lstrip p ++ x :: [NL; NL; y] ++ q)
      with ((lstrip p ++ [x; NL; NL]) ++ y :: q)
      by (rewrite <- app_assoc; reflexivity).
    rewrite (rstrip_stop _ y q Hy), <- app_assoc. reflexivity.
  - intros a k b Hmd Hk Ha Hb Va Vb. subst r. rewrite Hmd.
    destruct (@exists_last _ a) as (a0 & x & Ea).
    { destruct Va as (x & Hx & _). intros ->. exact Hx. }
    destruct b as [|y b0]; [destruct Vb as (y & [] & _)|].
    assert (Ex : eqc x NL = false).
    { destruct (eqc x NL) eqn:E; [|reflexivity].
      apply eqc_eq in E. subst x. exfalso. exact (Ha a0 Ea). }
    assert (Ey : eqc y NL = false).
    { destruct (eqc y NL) eqn:E; [|reflexivity].
      apply eqc_eq in E. subst y. exfalso. exact (Hb b0 eq_refl). }
    rewrite <- !sub_newlines_collapse_newlines.
    rewrite Ea in *. rewrite (sub_newlines_at_run a0 x k y b0 Ex Ey Hk).
    apply strip_around.
    + destruct Va as (v & Hv & Vv). exists v.
      split; [apply In_sub_newlines; assumption | exact Vv].
    + destruct Vb as (v & Hv & Vv). exists v.
      split; [apply In_sub_newlines; assumption | exact Vv].
  - subst r. rewrite sub_newlines_collapse_newlines. reflexivity.
Qed.

(** Four newlines after two blanks: exactly two newlines are left, the
    blanks stay. *)
Lemma html_to_markdown_text_normalized_witness :
  html_to_markdown_text markdown_blank_ex []
  = lit "a  " ++ [NL; NL] ++ lit "b".
Proof.
  destruct (html_to_markdown_text_normalized markdown_blank_ex [])
    as (_ & _ & _ & _ & H & _).
  rewrite (H (lit "a  ") 4 (lit "b") eq_refl).
  - vm_compute. reflexivity.
  - lia.
  - intros [|c1 [|c2 [|c3 [|c4 a']]]]; discriminate.
  - intros b'. discriminate.
  - exists 97%N. split; [left; reflexivity | reflexivity].
  - exists 98%N. split; [left; reflexivity | reflexivity].
Defined.

End MarkdownFacts.

(** ** TitleExtractor *)

Section TitleFacts.

Import TitleExtractor TitleSpec.

Section NodeInduction.

Variable P : node -> Prop.
Hypothesis P_string : forall s, P (NavigableString s).
Hypothesis P_comment : forall s, P (Comment s).
Hypothesis P_tag : forall name contents, Forall P contents -> P (Tag name contents).

Fixpoint node_induction (n : node) : P n :=
  match n with
  | NavigableString s => P_string s
  | Comment s => P_comment s
  | Tag name contents =>
      P_tag name contents
        ((fix all (ns : list node) : Forall P ns :=
            match ns with
            | [] => Forall_nil P
            | m :: ns' => Forall_cons m (node_induction m) (all ns')
            end) contents)
  end.

End NodeInduction.

Lemma hd_error_app {A : Type} (l1 l2 : list A) :
  hd_error (l1 ++ l2) =
  match hd_error l1 with Some x => Some x | None => hd_error l2 end.
Proof. destruct l1; reflexivity. Qed.

(** [find] returns the first of the tags of that name. *)
Lemma find_in_first (name : str) (n : node) :
  find_in name n = hd_error (find_all_in name n).
Proof.
  induction n as [s|s|nm contents IH] using node_induction;
    try reflexivity.
  simpl. destruct (str_eqb nm name); [reflexivity|]. simpl.
  induction IH as [|m ms Hm _ IHms]; [reflexivity|].
  rewrite hd_error_app, <- Hm.
  destruct (find_in name m); [reflexivity | exact IHms].
Qed.

Lemma find_first (name : str) (soup : list node) :
  find name soup = hd_error (find_all name soup).
Proof.
  induction soup as [|n ns IH]; [reflexivity|].
  simpl. rewrite hd_error_app, <- find_in_first.
  destruct (find_in name n); [reflexivity | exact IH].
Qed.

(** C4 as stated fails: the specification's title of [two_h1_soup] is the
    text of the second heading, "Foo"; the code looks at the first <h1>
    only and falls back to the <title>, "T". *)
Lemma first_nonempty_h1_counterexample :
  title_of_spec two_h1_soup = lit "Foo"
  /\ get_title_from_html two_h1_soup = lit "T"
  /\ get_title_from_html two_h1_soup <> title_of_spec two_h1_soup.
Proof. repeat split. vm_compute. discriminate. Qed.

(** C4, amended: [get_title_from_html] returns the text of the first <h1>
    of the document when that text is not empty; otherwise (no <h1>, or a
    first <h1> with empty text) it returns the text of the first <title>,
    and the empty string when there is no <title>. *)
Theorem get_title_from_first_h1 (soup : list node) :
  get_title_from_html soup =
  match find_all (lit "h1") soup with
  | h1 :: _ =>
      match get_text h1 with
      | [] => title_text soup
      | _ :: _ => get_text h1
      end
  | [] => title_text soup
  end.
Proof.
  unfold get_title_from_html, title_text.
  rewrite !find_first.
  assert (F : match hd_error (find_all (lit "title") soup) with
              | Some title_tag =>
                  match get_text title_tag with
                  | [] => []
                  | _ :: _ => get_text title_tag
                  end
              | None => []
              end
              = match find_all (lit "title") soup with
                | title_tag :: _ => get_text title_tag
                | [] => []
                end).
  { destruct (find_all (lit "title") soup) as [|t ts]; [reflexivity|].
    simpl. destruct (get_text t); reflexivity. }
  rewrite F.
  destruct (find_all (lit "h1") soup) as [|h hs]; reflexivity.
Qed.

End TitleFacts.

(** ** Translator *)

(** *** Calls to the backend and failures *)

Section BackendFacts.

Import Translator TranslatorSpec.

Variable translate : list str -> str -> outcome str.

Lemma for_each_ext {A B : Type} (f g : A -> M B) (xs : list A) :
  (forall x calls, f x calls = g x calls) ->
  forall calls, for_each f xs calls = for_each g xs calls.
Proof.
  intros H. induction xs as [|x xs IH]; intros calls; [reflexivity|].
  simpl. unfold bind. rewrite H.
  destruct (g x calls) as [[y|e] calls']; [|reflexivity].
  rewrite IH. reflexivity.
Qed.

(** A failed chunk is replaced by its own text, and the loop goes on. *)
Lemma translate_chunk_fallback (chunk : str) (calls : list str) (e : exn) :
  translate calls chunk = Raise e -> is_Exception e = true ->
  translate_chunk translate chunk calls = (Return chunk, calls ++ [chunk]).
Proof.
  intros Ht He. unfold translate_chunk, try_except_Exception,
    translator_translate, ret.
  rewrite Ht, He. reflexivity.
Qed.

Hypothesis errors_only :
  forall calls chunk e, translate calls chunk = Raise e -> is_Exception e = true.

Lemma translate_chunk_substituting (chunk : str) (calls : list str) :
  translate_chunk translate chunk calls
  = translate_chunk (substituting translate) chunk calls.
Proof.
  unfold translate_chunk, try_except_Exception, translator_translate,
    substituting, ret.
  destruct (translate calls chunk) as [t|e] eqn:Ht; [reflexivity|].
  rewrite (errors_only _ _ _ Ht). reflexivity.
Qed.

Lemma translate_block_substituting (block : str) (calls : list str) :
  translate_block translate block calls
  = translate_block (substituting translate) block calls.
Proof.
  unfold translate_block. destruct (strip block); [reflexivity|].
  unfold bind.
  rewrite (for_each_ext _ _ _ translate_chunk_substituting). reflexivity.
Qed.

Lemma translate_text_substituting (text : str) (calls : list str) :
  translate_text translate text calls
  = translate_text (substituting translate) text calls.
Proof.
  unfold translate_text. destruct (strip text); [reflexivity|].
  unfold bind.
  rewrite (for_each_ext _ _ _ translate_block_substituting). reflexivity.
Qed.

End BackendFacts.

Section RecoveryFacts.

Import Translator TranslatorSpec TextSpec RecoverySpec.

Lemma translate_chunk_output translate (chunk : str) (calls : list str) :
  (forall cs c e, translate cs c = Raise e -> is_Exception e = true) ->
  translate_chunk translate chunk calls
  = (Return (chunk_output translate calls chunk), calls ++ [chunk]).
Proof.
  intros H. unfold translate_chunk, try_except_Exception,
    translator_translate, chunk_output, ret.
  destruct (translate calls chunk) as [t|e] eqn:E; [reflexivity|].
  rewrite (H _ _ _ E). reflexivity.
Qed.

Lemma for_each_chunk_outputs translate (cs : list str) (calls : list str) :
  (forall cs c e, translate cs c = Raise e -> is_Exception e = true) ->
  for_each (translate_chunk translate) cs calls
  = (Return (chunk_outputs translate calls cs), calls ++ cs).
Proof.
  intros H. revert calls. induction cs as [|c cs IH]; intros calls.
  - simpl. unfold ret. rewrite app_nil_r. reflexivity.
  - cbn [for_each chunk_outputs]. unfold bind.
    rewrite (translate_chunk_output translate c calls H), IH.
    unfold ret. rewrite <- app_assoc. reflexivity.
Qed.

Lemma translate_block_output translate (p : str) (calls : list str) :
  (forall cs c e, translate cs c = Raise e -> is_Exception e = true) ->
  translate_block translate p calls
  = (Return (join [NL] (chunk_outputs translate calls (paragraph_chunks p))),
     calls ++ paragraph_chunks p).
Proof.
  intros H. unfold translate_block, paragraph_chunks.
  destruct (strip p) as [|c r].
  - simpl. unfold ret. rewrite app_nil_r. reflexivity.
  - unfold bind. rewrite (for_each_chunk_outputs translate _ calls H).
    reflexivity.
Qed.

Lemma for_each_block_outputs translate (ps : list str) (calls : list str) :
  (forall cs c e, translate cs c = Raise e -> is_Exception e = true) ->
  for_each (translate_block translate) ps calls
  = (Return (block_outputs translate calls ps),
     calls ++ flat_map paragraph_chunks ps).
Proof.
  intros H. revert calls. induction ps as [|p ps IH]; intros calls.
  - simpl. unfold ret. rewrite app_nil_r. reflexivity.
  - cbn [for_each block_outputs flat_map]. unfold bind.
    rewrite (translate_block_output translate p calls H), IH.
    unfold ret. rewrite <- app_assoc. reflexivity.
Qed.

Lemma chunk_outputs_all_failed translate (cs : list str) (calls : list str) :
  (forall cs c, exists e, translate cs c = Raise e) ->
  chunk_outputs translate calls cs = cs.
Proof.
  intros H. revert calls. induction cs as [|c cs IH]; intros calls;
    [reflexivity|].
  simpl. rewrite IH. unfold chunk_output.
  destruct (H calls c) as (e & ->). reflexivity.
Qed.

Lemma block_outputs_all_failed translate (ps : list str) (calls : list str) :
  (forall cs c, exists e, translate cs c = Raise e) ->
  block_outputs translate calls ps = map identity_block ps.
Proof.
  intros H. revert calls. induction ps as [|p ps IH]; intros calls;
    [reflexivity|].
  simpl. rewrite IH, (chunk_outputs_all_failed translate _ calls H).
  unfold paragraph_chunks, identity_block.
  destruct (strip p); reflexivity.
Qed.

(** C5: whatever errors the backend raises (instances of [Exception], the
    ones [except Exception] is there for), [translate_text] returns a text
    and never raises.  Every chunk of the text is submitted once, in the
    order of the text, and the text returned has, in the position of each
    chunk, the answer of the backend when the call succeeded and the
    chunk's own untranslated text when it failed.  In particular, when
    every call fails, the text returned is the text with its chunks left
    untranslated. *)
Theorem translate_text_survives_errors
  (translate : list str -> str -> outcome str) (text : str) (calls : list str) :
  (forall cs chunk e, translate cs chunk = Raise e -> is_Exception e = true) ->
  translate_text translate text calls
  = (Return (substituted_text translate calls text),
     calls ++ submitted_chunks text)
  /\ ((forall cs chunk, exists e, translate cs chunk = Raise e) ->
      fst (translate_text translate text calls)
      = Return (untranslated_text text)).
Proof.
  intros H.
  assert (E : translate_text translate text calls
              = (Return (substituted_text translate calls text),
                 calls ++ submitted_chunks text)).
  { unfold translate_text, substituted_text, submitted_chunks.
    destruct (strip text) as [|c r].
    - unfold ret. rewrite app_nil_r. reflexivity.
    - unfold bind. rewrite (for_each_block_outputs translate _ calls H).
      reflexivity. }
  split; [exact E|].
  intros Hfail. rewrite E. cbn [fst]. f_equal.
  unfold substituted_text, untranslated_text.
  destruct (strip text) as [|c r]; [reflexivity|].
  rewrite (block_outputs_all_failed translate _ calls Hfail). reflexivity.
Qed.

(** C6: an empty or whitespace-only text is returned as it is, and the
    backend is not called: the list of calls is unchanged. *)
Theorem translate_text_whitespace
  (translate : list str -> str -> outcome str) (text : str) (calls : list str) :
  forallb isspace text = true ->
  translate_text translate text calls = (Return text, calls).
Proof.
  intros H. unfold translate_text.
  replace (strip text) with (@nil char); [reflexivity|].
  unfold strip, lstrip.
  pose proof (dropwhile_all isspace text [] H) as E.
  rewrite app_nil_r in E. rewrite E. reflexivity.
Qed.

End RecoveryFacts.

(** *** The packing loop *)

Section PackingFacts.

Import Translator TranslatorSpec.

Local Opaque SAFETY_MARGIN.

Lemma join_snoc_length (cur : list str) (l : str) :
  length (join [NL] (cur ++ [l])) <= length (join [NL] cur) + 1 + length l.
Proof.
  destruct cur as [|c cur].
  - simpl. lia.
  - rewrite join_snoc by discriminate. rewrite !length_app. simpl. lia.
Qed.

Lemma packing_inv_step (done : list str) (st : packing) (line : str) :
  packing_inv done st -> packing_inv (done ++ [line]) (pack_line st line).
Proof.
  intros (Hch & Hlen & Hcur & Hbig). unfold pack_line.
  destruct (SAFETY_MARGIN <? current_len st + length line + 1) eqn:G.
  - apply Nat.ltb_lt in G. unfold packing_inv; cbn [chunks current current_len].
    repeat split.
    + apply Forall_app. split.
      * eapply Forall_impl; [|exact Hch]. intros c [H|[H1 H2]]; [left|right];
          auto. split; [exact H1 | apply in_or_app; left; exact H2].
      * constructor; [|constructor].
        destruct Hcur as [Hle | (l & Hl & Hin & Hov)].
        -- left. lia.
        -- right. rewrite Hl. simpl. split; [exact Hov|].
           apply in_or_app. left. exact Hin.
    + simpl. lia.
    + destruct (Nat.le_gt_cases (length line) SAFETY_MARGIN) as [H|H];
        [left; exact H|].
      right. exists line. repeat split; auto.
      apply in_or_app. right. left. reflexivity.
    + intros l Hin Hov. apply in_app_or in Hin as [Hin|[<-|[]]].
      * left. apply in_or_app.
        destruct (Hbig l Hin Hov) as [H|H]; [left; exact H|].
        right. rewrite H. left. reflexivity.
      * right. reflexivity.
  - apply Nat.ltb_ge in G. unfold packing_inv; cbn [chunks current current_len].
    repeat split.
    + eapply Forall_impl; [|exact Hch]. intros c [H|[H1 H2]]; [left|right];
        auto. split; [exact H1 | apply in_or_app; left; exact H2].
    + pose proof (join_snoc_length (current st) line). lia.
    + left. lia.
    + intros l Hin Hov. apply in_app_or in Hin as [Hin|[<-|[]]]; [|lia].
      destruct (Hbig l Hin Hov) as [H|H]; [left; exact H|].
      rewrite H in Hlen. simpl in Hlen. lia.
Qed.

Lemma packing_inv_fold (rest done : list str) (st : packing) :
  packing_inv done st ->
  packing_inv (done ++ rest) (fold_left pack_line rest st).
Proof.
  revert done st. induction rest as [|l rest IH]; intros done st H; simpl.
  - rewrite app_nil_r. exact H.
  - replace (done ++ l :: rest) with ((done ++ [l]) ++ rest)
      by (rewrite <- app_assoc; reflexivity).
    apply IH, packing_inv_step, H.
Qed.

Lemma packing_inv_init : packing_inv [] init_packing.
Proof.
  unfold packing_inv, init_packing; cbn [chunks current current_len].
  repeat split; [constructor | simpl; lia | left; lia | intros l []].
Qed.

(** Every chunk is within the margin, or is a single oversized line. *)
Lemma pack_lines_bounded (lines : list str) (c : str) :
  In c (pack_lines lines) ->
  length c <= SAFETY_MARGIN \/ (SAFETY_MARGIN < length c /\ In c lines).
Proof.
  unfold pack_lines.
  pose proof (packing_inv_fold lines [] init_packing packing_inv_init)
    as (Hch & Hlen & Hcur & _).
  fold init_packing. simpl app in *.
  set (st := fold_left pack_line lines init_packing) in *.
  rewrite Forall_forall in Hch.
  assert (Hlast : length (join [NL] (current st)) <= SAFETY_MARGIN
                  \/ (SAFETY_MARGIN < length (join [NL] (current st))
                      /\ In (join [NL] (current st)) lines)).
  { destruct Hcur as [Hle | (l & Hl & Hin & Hov)]; [left; lia|].
    right. rewrite Hl. simpl. auto. }
  destruct (current st) eqn:Ec.
  - apply Hch.
  - intros Hin. apply in_app_or in Hin as [Hin|[<-|[]]];
      [apply Hch, Hin | exact Hlast].
Qed.

(** Every oversized line is a chunk of its own. *)
Lemma pack_lines_oversized (lines : list str) (l : str) :
  In l lines -> SAFETY_MARGIN < length l -> In l (pack_lines lines).
Proof.
  intros Hin Hov. unfold pack_lines.
  pose proof (packing_inv_fold lines [] init_packing packing_inv_init)
    as (_ & _ & _ & Hbig).
  fold init_packing. simpl app in *.
  set (st := fold_left pack_line lines init_packing) in *.
  destruct (Hbig l Hin Hov) as [H|H].
  - destruct (current st); [exact H | apply in_or_app; left; exact H].
  - rewrite H. apply in_or_app. right. left. reflexivity.
Qed.

End PackingFacts.

(** *** What the chunks of a block join back to *)

Section RejoinFacts.

Import Translator TranslatorSpec.

Local Opaque SAFETY_MARGIN.

Lemma join_last_app (sep : str) (xs : list str) (a b : str) :
  join sep (xs ++ [a ++ b]) = join sep (xs ++ [a]) ++ b.
Proof.
  induction xs as [|x xs IH]; [reflexivity|].
  change ((x :: xs) ++ [a ++ b]) with (x :: (xs ++ [a ++ b])).
  change ((x :: xs) ++ [a]) with (x :: (xs ++ [a])).
  rewrite !join_cons by (destruct xs; discriminate).
  rewrite IH, <- !app_assoc. reflexivity.
Qed.

Lemma join_lines (l : str) (rest : list str) :
  join [NL] (l :: rest) = l ++ concat (map (cons NL) rest).
Proof.
  revert l. induction rest as [|r rest IH]; intros l.
  - simpl. rewrite app_nil_r. reflexivity.
  - rewrite join_cons by discriminate. rewrite IH. reflexivity.
Qed.

Lemma pack_line_text (st : packing) (line : str) :
  current st <> [] ->
  current (pack_line st line) <> []
  /\ packed_text (pack_line st line) = packed_text st ++ NL :: line.
Proof.
  intros Hc. unfold pack_line, packed_text.
  destruct (SAFETY_MARGIN <? current_len st + length line + 1);
    cbn [chunks current current_len].
  - split; [discriminate|].
    change (join [NL] [line]) with line.
    rewrite join_snoc by (destruct (chunks st); discriminate).
    reflexivity.
  - split; [destruct (current st); discriminate|].
    rewrite (join_snoc [NL] (current st) line Hc).
    apply join_last_app.
Qed.

Lemma pack_fold_text (rest : list str) (st : packing) :
  current st <> [] ->
  current (fold_left pack_line rest st) <> []
  /\ packed_text (fold_left pack_line rest st)
     = packed_text st ++ concat (map (cons NL) rest).
Proof.
  revert st. induction rest as [|l rest IH]; intros st Hc; simpl.
  - rewrite app_nil_r. auto.
  - destruct (pack_line_text st l Hc) as [Hc' Ht].
    destruct (IH _ Hc') as [Hc'' Ht'].
    split; [exact Hc''|]. rewrite Ht', Ht, <- app_assoc. reflexivity.
Qed.

Lemma pack_fold_chunks (rest : list str) (st : packing) :
  exists more, chunks (fold_left pack_line rest st) = chunks st ++ more.
Proof.
  revert st. induction rest as [|l rest IH]; intros st; simpl.
  - exists []. rewrite app_nil_r. reflexivity.
  - destruct (IH (pack_line st l)) as [more ->]. unfold pack_line.
    destruct (SAFETY_MARGIN <? current_len st + length l + 1);
      cbn [chunks].
    + eexists. rewrite <- app_assoc. reflexivity.
    + eexists. reflexivity.
Qed.

(** Joined again, the chunks of a block give its lines back, after a
    newline when the first line alone overflows the margin. *)
Lemma pack_lines_join (first : str) (rest : list str) :
  join [NL] (pack_lines (first :: rest)) =
  (if SAFETY_MARGIN <? length first + 1 then [NL] else [])
  ++ join [NL] (first :: rest).
Proof.
  unfold pack_lines. cbn [fold_left].
  set (st1 := pack_line (mkPacking [] [] 0) first).
  assert (H1 : current st1 <> []
               /\ packed_text st1 =
                  (if SAFETY_MARGIN <? length first + 1 then [NL] else [])
                  ++ first).
  { subst st1. unfold pack_line, packed_text. cbn [chunks current current_len].
    change (0 + length first + 1) with (length first + 1).
    destruct (SAFETY_MARGIN <? length first + 1);
      cbn [chunks current current_len]; split; try discriminate; reflexivity. }
  destruct H1 as [Hc Ht].
  destruct (pack_fold_text rest st1 Hc) as [Hc' Ht'].
  unfold packed_text in Ht'. fold (packed_text st1) in Ht'.
  destruct (current (fold_left pack_line rest st1)) eqn:E; [contradiction|].
  rewrite Ht', Ht, join_lines, <- app_assoc. reflexivity.
Qed.

(** When the first line alone overflows, the first chunk is empty. *)
Lemma pack_lines_empty_chunk (first : str) (rest : list str) :
  SAFETY_MARGIN < length first + 1 ->
  exists more, pack_lines (first :: rest) = [] :: more.
Proof.
  intros Hov. unfold pack_lines. cbn [fold_left].
  destruct (pack_fold_chunks rest (pack_line (mkPacking [] [] 0) first))
    as [more Hm].
  assert (H1 : chunks (pack_line (mkPacking [] [] 0) first) = [[]]).
  { unfold pack_line. cbn [chunks current current_len].
    change (0 + length first + 1) with (length first + 1).
    apply Nat.ltb_lt in Hov. rewrite Hov. reflexivity. }
  rewrite H1 in Hm. rewrite Hm.
  destruct (current _); eexists; reflexivity.
Qed.

End RejoinFacts.

(** *** Paragraphs: splitting on the blank line and joining again *)

Section ParagraphFacts.

Import TranslatorSpec.

Lemma find_sep_here (sep s r : str) :
  strip_prefix sep s = Some r -> find_sep sep s = Some ([], r).
Proof. intros H. destruct s; cbn [find_sep]; rewrite H; reflexivity. Qed.

Lemma find_sep_None_no_occurrence (sep s : str) :
  find_sep sep s = None -> forall a b, s <> a ++ sep ++ b.
Proof.
  intros H a. revert s H. induction a as [|x a IH]; intros s H b E.
  - subst s. simpl app in H.
    rewrite (find_sep_here _ _ _ (strip_prefix_app sep b)) in H.
    discriminate.
  - subst s. simpl app in H. cbn [find_sep] in H.
    destruct (strip_prefix sep (x :: a ++ sep ++ b)); [discriminate|].
    destruct (find_sep sep (a ++ sep ++ b)) as [[b' a']|] eqn:Hf;
      [discriminate|].
    exact (IH _ Hf b eq_refl).
Qed.

Lemma no_occurrence_find_sep_None (sep s : str) :
  (forall a b, s <> a ++ sep ++ b) -> find_sep sep s = None.
Proof.
  intros H. destruct (find_sep sep s) as [[b a]|] eqn:Hf; [|reflexivity].
  exfalso. exact (H b a (find_sep_sound _ _ _ _ Hf)).
Qed.

Lemma nn_free_sub (w1 m w2 : str) : nn_free (w1 ++ m ++ w2) -> nn_free m.
Proof.
  intros H. apply no_occurrence_find_sep_None. intros a b E.
  apply (find_sep_None_no_occurrence _ _ H (w1 ++ a) (b ++ w2)).
  rewrite E, <- !app_assoc. reflexivity.
Qed.

Lemma nn_free_snoc (s : str) :
  nn_free s -> (forall r, s <> r ++ [NL]) -> nn_free (s ++ [NL]).
Proof.
  intros H Hl. apply no_occurrence_find_sep_None. intros a b E.
  destruct b as [|z b] using rev_ind.
  - change (a ++ [NL; NL] ++ []) with (a ++ [NL] ++ [NL]) in E.
    rewrite app_assoc in E. apply app_inj_tail in E as [E _].
    exact (Hl a E).
  - clear IHb.
    replace (a ++ [NL; NL] ++ b ++ [z]) with ((a ++ [NL; NL] ++ b) ++ [z]) in E
      by (rewrite <- !app_assoc; reflexivity).
    apply app_inj_tail in E as [E _].
    exact (find_sep_None_no_occurrence _ _ H a b E).
Qed.

Lemma nn_free_cons (s : str) :
  nn_free s -> (forall r, s <> NL :: r) -> nn_free (NL :: s).
Proof.
  intros H Hh. apply no_occurrence_find_sep_None. intros a b E.
  destruct a as [|x a].
  - simpl in E. injection E as E. exact (Hh _ E).
  - simpl in E. injection E as _ E.
    exact (find_sep_None_no_occurrence _ _ H a b E).
Qed.

Lemma NL_is_NL : eqc NL NL = true.
Proof. reflexivity. Qed.

(** The occurrence [find] returns is the leftmost one. *)
Lemma find_NN_leftmost (s before after : str) :
  find_sep [NL; NL] s = Some (before, after) -> nn_free (before ++ [NL]).
Proof.
  unfold nn_free. revert before after.
  induction s as [|x s IH]; intros before after; [discriminate|].
  cbn [find_sep].
  destruct (strip_prefix [NL; NL] (x :: s)) as [r|] eqn:Hp.
  - intros [= <- <-]. reflexivity.
  - destruct (find_sep [NL; NL] s) as [[b' a']|] eqn:Hf; [|discriminate].
    intros [= <- <-]. specialize (IH _ _ eq_refl).
    apply find_sep_sound in Hf. subst s.
    change ((x :: b') ++ [NL]) with (x :: (b' ++ [NL])).
    cbn [find_sep]. rewrite IH.
    replace (strip_prefix [NL; NL] (x :: b' ++ [NL])) with (@None str);
      [reflexivity|].
    cbn [strip_prefix] in *. destruct (eqc NL x); [|reflexivity].
    destruct b' as [|y b'].
    + simpl in Hp. discriminate.
    + cbn [app] in *. destruct (eqc NL y); [discriminate | reflexivity].
Qed.

(** A piece that is free of blank lines, also with the first newline of
    the separator after it, is found as it is. *)
Lemma find_NN_at (q rest : str) :
  nn_free (q ++ [NL]) ->
  find_sep [NL; NL] (q ++ [NL; NL] ++ rest) = Some (q, rest).
Proof.
  unfold nn_free. induction q as [|x q IH]; intros H.
  - reflexivity.
  - change ((x :: q) ++ [NL]) with (x :: (q ++ [NL])) in H.
    change ((x :: q) ++ [NL; NL] ++ rest)
      with (x :: (q ++ [NL; NL] ++ rest)).
    cbn [find_sep] in *.
    destruct (strip_prefix [NL; NL] (x :: q ++ [NL])) eqn:Hp; [discriminate|].
    destruct (find_sep [NL; NL] (q ++ [NL])) as [[b a]|] eqn:Hf;
      [discriminate|].
    rewrite (IH eq_refl).
    replace (strip_prefix [NL; NL] (x :: q ++ [NL; NL] ++ rest))
      with (@None str); [reflexivity|].
    cbn [strip_prefix] in *. destruct (eqc NL x); [|reflexivity].
    destruct q as [|y q].
    + simpl in Hp. discriminate.
    + cbn [app] in *. destruct (eqc NL y); [discriminate | reflexivity].
Qed.

(** The paragraphs of a text have no blank line inside. *)
Lemma split_NN_pieces (s : str) : Forall nn_free (split [NL; NL] s).
Proof.
  remember (length s) as n eqn:Hn. revert s Hn.
  induction n as [n IH] using lt_wf_ind. intros s Hn.
  rewrite split_unfold.
  destruct (find_sep [NL; NL] s) as [[b a]|] eqn:Hf.
  - constructor.
    + apply find_NN_leftmost in Hf.
      apply (nn_free_sub [] b [NL]). exact Hf.
    + apply (IH (length a)); [|reflexivity].
      subst n. eapply find_sep_shorter; eauto.
  - constructor; [exact Hf | constructor].
Qed.

(** Joining such pieces and splitting again gives the pieces back. *)
Lemma split_join_NN (ps : list str) :
  ps <> [] -> Forall (fun q => nn_free (q ++ [NL])) ps ->
  split [NL; NL] (join [NL; NL] ps) = ps.
Proof.
  induction ps as [|q ps IH]; [contradiction|]. intros _ H.
  inversion H as [|q' ps' Hq Hps]; subst.
  destruct ps as [|q2 ps].
  - simpl. rewrite split_unfold.
    replace (find_sep [NL; NL] q) with (@None (str * str)); [reflexivity|].
    symmetry. apply (nn_free_sub [] q [NL]). exact Hq.
  - rewrite join_cons by discriminate.
    rewrite split_unfold, (find_NN_at q _ Hq).
    rewrite IH; [reflexivity | discriminate | exact Hps].
Qed.

End ParagraphFacts.

(** *** The chunks submitted to the backend *)

Section SubmittedChunks.

Import Translator TranslatorSpec.

Variable translate : list str -> str -> outcome str.

Lemma for_each_log {A B : Type} (f : A -> M B) (Q : A -> str -> Prop)
      (xs : list A) :
  (forall x calls, exists new,
      snd (f x calls) = calls ++ new /\ Forall (Q x) new) ->
  forall calls, exists new,
    snd (for_each f xs calls) = calls ++ new
    /\ Forall (fun c => exists x, In x xs /\ Q x c) new.
Proof.
  intros H. induction xs as [|x xs IH]; intros calls.
  - exists []. simpl. rewrite app_nil_r. split; [reflexivity | constructor].
  - destruct (H x calls) as (new1 & H1 & Q1).
    assert (Q1' : Forall (fun c => exists x0, In x0 (x :: xs) /\ Q x0 c) new1).
    { eapply Forall_impl; [|exact Q1]. intros c Hc. exists x.
      split; [left; reflexivity | exact Hc]. }
    simpl. unfold bind.
    destruct (f x calls) as [[y|e] calls1]; simpl in H1; subst calls1.
    + destruct (IH (calls ++ new1)) as (new2 & H2 & Q2).
      exists (new1 ++ new2). split.
      * destruct (for_each f xs (calls ++ new1)) as [[ys|e] calls2];
          simpl in H2; subst calls2; simpl; rewrite app_assoc; reflexivity.
      * apply Forall_app. split; [exact Q1'|].
        eapply Forall_impl; [|exact Q2]. intros c (x0 & Hin & Hc).
        exists x0. split; [right; exact Hin | exact Hc].
    + exists new1. split; [reflexivity | exact Q1'].
Qed.

Lemma translate_chunk_log (chunk : str) (calls : list str) :
  exists new,
    snd (translate_chunk translate chunk calls) = calls ++ new
    /\ Forall (eq chunk) new.
Proof.
  exists [chunk]. split; [|repeat constructor].
  unfold translate_chunk, try_except_Exception, translator_translate, ret.
  destruct (translate calls chunk) as [t|e]; [reflexivity|].
  destruct (is_Exception e); reflexivity.
Qed.

Lemma translate_block_log (block : str) (calls : list str) :
  exists new,
    snd (translate_block translate block calls) = calls ++ new
    /\ Forall (fun c => In c (pack_chunks (strip block))) new.
Proof.
  unfold translate_block. destruct (strip block) as [|c0 b] eqn:Eb.
  - exists []. simpl. rewrite app_nil_r. split; [reflexivity | constructor].
  - destruct (for_each_log (translate_chunk translate) (@eq str)
                (pack_chunks (c0 :: b)) translate_chunk_log calls)
      as (new & Hs & Hq).
    exists new. split.
    + unfold bind.
      destruct (for_each (translate_chunk translate) (pack_chunks (c0 :: b))
                  calls) as [[ys|e] calls1]; exact Hs.
    + eapply Forall_impl; [|exact Hq]. intros c (x & Hin & ->). exact Hin.
Qed.

Lemma translate_text_log (text : str) (calls : list str) :
  exists new,
    snd (translate_text translate text calls) = calls ++ new
    /\ Forall (fun c => exists p, In p (split [NL; NL] text)
                                  /\ In c (pack_chunks (strip p))) new.
Proof.
  unfold translate_text. destruct (strip text) as [|c0 t].
  - exists []. simpl. rewrite app_nil_r. split; [reflexivity | constructor].
  - destruct (for_each_log (translate_block translate)
                (fun p c => In c (pack_chunks (strip p)))
                (split [NL; NL] text) translate_block_log calls)
      as (new & Hs & Hq).
    exists new. split; [|exact Hq].
    unfold bind.
    destruct (for_each (translate_block translate) (split [NL; NL] text)
                calls) as [[ys|e] calls1]; exact Hs.
Qed.

End SubmittedChunks.

Section Chunking.

Import Translator TranslatorSpec.

(** C2: every chunk [translate_text] submits to the backend has at most
    SAFETY_MARGIN (3500) characters, separators included, unless it is a
    single line of a paragraph that is longer than the margin by itself;
    and every such oversized line is a chunk of its own. *)
Theorem chunks_within_safety_margin
  (translate : list str -> str -> outcome str) (text : str) :
  Forall (chunk_ok text) (snd (translate_text translate text []))
  /\ (forall block line,
        In line (split [NL] block) -> SAFETY_MARGIN < length line ->
        In line (pack_chunks block)).
Proof.
  split.
  - destruct (translate_text_log translate text []) as (new & -> & H).
    simpl. eapply Forall_impl; [|exact H].
    intros c (p & Hp & Hc). unfold chunk_ok.
    destruct (pack_lines_bounded _ _ Hc) as [Hle | [Hov Hin]];
      [left; exact Hle|].
    right. split; [exact Hov|]. exists p. auto.
  - intros block line. apply pack_lines_oversized.
Qed.

End Chunking.

(** *** The identity backend *)

Section IdentityBackend.

Import Translator TranslatorSpec.

Lemma for_each_map {A B : Type} (f : A -> M B) (g : A -> B) (xs : list A) :
  (forall x calls, exists calls', f x calls = (Return (g x), calls')) ->
  forall calls, exists calls',
    for_each f xs calls = (Return (map g xs), calls').
Proof.
  intros H. induction xs as [|x xs IH]; intros calls; simpl.
  - eexists. reflexivity.
  - unfold bind. destruct (H x calls) as (calls1 & ->).
    destruct (IH calls1) as (calls2 & ->). eexists. reflexivity.
Qed.

Lemma translate_block_identity (p : str) (calls : list str) :
  exists calls',
    translate_block identity_backend p calls = (Return (identity_block p), calls').
Proof.
  unfold translate_block, identity_block.
  destruct (strip p) as [|c b]; [eexists; reflexivity|].
  unfold bind.
  destruct (for_each_map (translate_chunk identity_backend) (fun c => c)
              (pack_chunks (c :: b))) with (calls := calls) as (calls' & ->).
  - intros x cs. eexists. reflexivity.
  - rewrite map_id. eexists. reflexivity.
Qed.

Lemma translate_text_identity (text : str) (calls : list str) :
  strip text <> [] ->
  exists calls',
    translate_text identity_backend text calls
    = (Return (join [NL; NL] (map identity_block (split [NL; NL] text))),
       calls').
Proof.
  intros Hne. unfold translate_text.
  destruct (strip text) as [|c t]; [contradiction|].
  unfold bind.
  destruct (for_each_map (translate_block identity_backend) identity_block
              (split [NL; NL] text) translate_block_identity calls)
    as (calls' & ->).
  eexists. reflexivity.
Qed.

(** A paragraph comes back stripped, after a newline when its first line
    alone overflows the margin. *)
Lemma identity_block_shape (p : str) :
  identity_block p =
  match strip p with
  | [] => []
  | _ :: _ =>
      (if SAFETY_MARGIN <? length (hd [] (split [NL] (strip p))) + 1
       then [NL] else []) ++ strip p
  end.
Proof.
  unfold identity_block, pack_chunks.
  destruct (strip p) as [|c b] eqn:Eb; [reflexivity|].
  pose proof (join_split NL [] (c :: b)) as Hj.
  destruct (split [NL] (c :: b)) as [|first rest] eqn:Es.
  - exfalso. exact (split_not_nil _ _ Es).
  - rewrite pack_lines_join, Hj. reflexivity.
Qed.

Lemma strip_strip (s : str) : strip (strip s) = strip s.
Proof.
  unfold strip at 1. rewrite lstrip_strip. unfold strip. apply rstrip_fix.
Qed.

Lemma strip_identity_block (p : str) : strip (identity_block p) = strip p.
Proof.
  rewrite identity_block_shape.
  destruct (strip p) as [|c b] eqn:Eb; [reflexivity|].
  rewrite <- Eb.
  destruct (SAFETY_MARGIN <? _); [|apply strip_strip].
  change (strip ([NL] ++ strip p)) with (strip (strip p)).
  apply strip_strip.
Qed.

Lemma strip_no_trailing_NL (p r : str) : strip p <> r ++ [NL].
Proof.
  intros E. apply strip_last in E. discriminate.
Qed.

Lemma identity_block_good (p : str) :
  nn_free p -> nn_free (identity_block p ++ [NL]).
Proof.
  intros Hp. rewrite identity_block_shape.
  assert (Hs : nn_free (strip p ++ [NL])).
  { apply nn_free_snoc; [|apply strip_no_trailing_NL].
    destruct (strip_decomp p) as (w1 & w2 & E & _ & _).
    apply (nn_free_sub w1 (strip p) w2). rewrite <- E. exact Hp. }
  destruct (strip p) as [|c b] eqn:Eb; [reflexivity|].
  destruct (SAFETY_MARGIN <? _); [|exact Hs].
  change (([NL] ++ c :: b) ++ [NL]) with (NL :: ((c :: b) ++ [NL])).
  apply nn_free_cons; [exact Hs|].
  intros r E. injection E as E _. subst c.
  apply strip_head in Eb. discriminate.
Qed.

(** The paragraphs of the output are those of [identity_block]. *)
Lemma identity_output_paragraphs (text : str) :
  split [NL; NL] (join [NL; NL] (map identity_block (split [NL; NL] text)))
  = map identity_block (split [NL; NL] text).
Proof.
  apply split_join_NN.
  - intros E. apply map_eq_nil in E. exact (split_not_nil _ _ E).
  - apply Forall_map.
    eapply Forall_impl; [|apply split_NN_pieces].
    intros p. apply identity_block_good.
Qed.

(** C3: with the identity backend, [translate_text] returns a text whose
    paragraphs (the pieces between blank lines) are as many as those of
    the input and, one by one and in the same order, equal to them up to
    the whitespace around each: none is lost, none is duplicated. *)
Theorem identity_backend_keeps_paragraphs (text : str) :
  exists out calls,
    translate_text identity_backend text [] = (Return out, calls)
    /\ length (split [NL; NL] out) = length (split [NL; NL] text)
    /\ map strip (split [NL; NL] out) = map strip (split [NL; NL] text).
Proof.
  destruct (strip text) as [|c t] eqn:Et.
  - exists text, []. unfold translate_text. rewrite Et. auto.
  - destruct (translate_text_identity text []) as (calls & E);
      [rewrite Et; discriminate|].
    eexists _, calls. split; [exact E|].
    rewrite identity_output_paragraphs. split.
    + apply length_map.
    + rewrite map_map. apply map_ext. apply strip_identity_block.
Qed.

End IdentityBackend.

(** *** A first line that overflows by itself *)

Section FirstLineOverflow.

Import Translator TranslatorSpec.

Lemma In_join (sep p : str) (ps : list str) :
  In p ps -> exists a b, join sep ps = a ++ p ++ b.
Proof.
  induction ps as [|q ps IH]; [intros []|].
  intros [->|Hin].
  - destruct ps as [|q2 ps].
    + exists [], []. simpl. rewrite app_nil_r. reflexivity.
    + exists [], (sep ++ join sep (q2 :: ps)). reflexivity.
  - destruct (IH Hin) as (a & b & E).
    exists (q ++ sep ++ a), b.
    rewrite join_cons by (destruct ps; [destruct Hin | discriminate]).
    rewrite E, <- !app_assoc. reflexivity.
Qed.

Lemma visible_char_strip (u v : str) (x : char) :
  isspace x = false -> strip (u ++ x :: v) <> [].
Proof.
  intros Hx. unfold strip, lstrip.
  rewrite (dropwhile_stop isspace u x v Hx).
  rewrite (rstrip_stop _ x v Hx).
  destruct (dropwhile isspace u); discriminate.
Qed.

(** A text with a paragraph that is not blank is not blank. *)
Lemma paragraph_not_blank (text p : str) :
  In p (split [NL; NL] text) -> strip p <> [] -> strip text <> [].
Proof.
  intros Hin Hp.
  destruct (In_join [NL; NL] p _ Hin) as (a & b & E).
  rewrite join_split in E.
  destruct (strip p) as [|c r] eqn:Es; [contradiction|].
  destruct (strip_decomp p) as (w1 & w2 & Ep & _ & _).
  rewrite Es in Ep. rewrite E, Ep.
  replace (a ++ (w1 ++ (c :: r) ++ w2) ++ b)
    with ((a ++ w1) ++ c :: (r ++ w2 ++ b))
    by (rewrite <- !app_assoc; simpl; rewrite <- ?app_assoc; reflexivity).
  apply visible_char_strip. exact (strip_head _ _ _ Es).
Qed.

(** C10: when the first line of a paragraph alone overflows the packing
    condition (its length plus one exceeds SAFETY_MARGIN), the chunks of
    the paragraph start with an empty chunk, and with the identity backend
    the paragraph comes out with a newline in front. *)
Theorem first_line_overflow_adds_newline (text p : str) (i : nat) :
  nth_error (split [NL; NL] text) i = Some p ->
  SAFETY_MARGIN < length (hd [] (split [NL] (strip p))) + 1 ->
  (exists more, pack_chunks (strip p) = [] :: more)
  /\ exists out calls,
       translate_text identity_backend text [] = (Return out, calls)
       /\ nth_error (split [NL; NL] out) i = Some (NL :: strip p).
Proof.
  intros Hi Hov.
  assert (Hne : strip p <> []).
  { intros E. rewrite E, split_char_nil in Hov. cbn [hd length] in Hov.
    unfold SAFETY_MARGIN in Hov. lia. }
  split.
  - unfold pack_chunks.
    destruct (split [NL] (strip p)) as [|first rest] eqn:Es.
    + exfalso. exact (split_not_nil _ _ Es).
    + apply pack_lines_empty_chunk. exact Hov.
  - destruct (translate_text_identity text []) as (calls & E).
    { apply (paragraph_not_blank text p); [|exact Hne].
      eapply nth_error_In, Hi. }
    eexists _, calls. split; [exact E|].
    rewrite identity_output_paragraphs, nth_error_map, Hi. simpl.
    rewrite identity_block_shape.
    destruct (strip p) as [|c b]; [contradiction|].
    apply Nat.ltb_lt in Hov. rewrite Hov. reflexivity.
Qed.

End FirstLineOverflow.

(** ** The theorems at concrete inputs *)

Section Witnesses.

Import Translator TranslatorSpec FurtherInputs.

Lemma flaky_backend_errors (cs : list str) (chunk : str) (e : exn) :
  flaky_backend cs chunk = Raise e -> is_Exception e = true.
Proof.
  unfold flaky_backend.
  destruct (TitleExtractor.str_eqb chunk (lit "b")); [|discriminate].
  intros H. injection H as <-. reflexivity.
Qed.

(** An oversized line followed by a short one: the long line is a chunk. *)
Lemma chunks_within_safety_margin_witness :
  In long_line (pack_chunks (long_line ++ NL :: lit "b")).
Proof.
  apply (proj2 (chunks_within_safety_margin identity_backend [])).
  - vm_compute. left. reflexivity.
  - apply Nat.ltb_lt. vm_compute. reflexivity.
Defined.

(** A backend that fails on the second of two chunks: the first comes back
    translated, the second as it was. *)
Lemma translate_text_survives_errors_witness :
  translate_text flaky_backend (lit "a" ++ [NL; NL] ++ lit "b") []
  = (Return (lit "T" ++ [NL; NL] ++ lit "b"), [lit "a"; lit "b"]).
Proof.
  apply (eq_trans
           (proj1 (translate_text_survives_errors flaky_backend
                     (lit "a" ++ [NL; NL] ++ lit "b") []
                     flaky_backend_errors))).
  vm_compute. reflexivity.
Defined.

(** Two spaces: returned as they are, no call. *)
Lemma translate_text_whitespace_witness :
  translate_text failing_backend (lit "  ") [] = (Return (lit "  "), []).
Proof.
  apply (translate_text_whitespace failing_backend (lit "  ") []).
  reflexivity.
Defined.

(** A one-line text of exactly SAFETY_MARGIN characters *)
Lemma first_line_overflow_adds_newline_witness :
  (exists more, pack_chunks (strip margin_line) = [] :: more)
  /\ exists out calls,
       translate_text identity_backend margin_line [] = (Return out, calls)
       /\ nth_error (split [NL; NL] out) 0 = Some (NL :: strip margin_line).
Proof.
  apply (first_line_overflow_adds_newline margin_line margin_line 0).
  - vm_compute. reflexivity.
  - apply Nat.ltb_lt. vm_compute. reflexivity.
Defined.

End Witnesses.

(** * Further properties of the script *)

(** ** The id of a URL and the links of a document *)

Section IdFacts.

Import LinkSource LinkSpec Persister.

Lemma split_char_pieces (c : char) (s : str) :
  Forall (fun p => ~ In c p) (split [c] s).
Proof.
  induction s as [|x s IH].
  - rewrite split_char_nil. constructor; [intros [] | constructor].
  - rewrite split_char_cons. destruct (eqc c x) eqn:E.
    + constructor; [intros [] | exact IH].
    + destruct (split [c] s) as [|p ps]; simpl.
      * constructor; [|constructor]. intros [->|[]].
        rewrite eqc_refl in E. discriminate.
      * inversion IH as [|p' ps' Hp Hps]; subst.
        constructor; [|exact Hps]. intros [->|Hin]; [|exact (Hp Hin)].
        rewrite eqc_refl in E. discriminate.
Qed.

Lemma last_Forall {A : Type} (P : A -> Prop) (l : list A) (d : A) :
  Forall P l -> P d -> P (last l d).
Proof.
  intros H Hd. induction H as [|x l Hx Hl IH]; [exact Hd|].
  destruct l; [exact Hx | exact IH].
Qed.

(** X1: the id never contains a "/": the file name built from it names a file
    of the output directory itself. *)
Theorem qiita_id_has_no_slash (url : str) :
  ~ In SLASH (qiita_id_from_url url).
Proof.
  unfold qiita_id_from_url.
  apply (last_Forall (fun p => ~ In SLASH p)).
  - apply split_char_pieces.
  - intros [].
Qed.

Lemma rstrip_char_all (c : char) (s : str) :
  forallb (eqc c) s = true -> rstrip_char c s = [].
Proof.
  intros H. unfold rstrip_char.
  assert (Hr : forallb (eqc c) (rev s) = true).
  { rewrite forallb_forall in *. intros x Hx. apply H, in_rev, Hx. }
  pose proof (dropwhile_all (eqc c) (rev s) [] Hr) as E.
  rewrite app_nil_r in E. rewrite E. reflexivity.
Qed.

Lemma qiita_id_nil_slashes (url : str) :
  qiita_id_from_url url = [] -> forallb (eqc SLASH) url = true.
Proof.
  unfold qiita_id_from_url. intros H.
  destruct (rstrip_char_decomp SLASH url) as (w & Hu & Hw).
  destruct (rstrip_char SLASH url) as [|x0 core0] eqn:Hc.
  - rewrite Hu. exact Hw.
  - exfalso.
    destruct (@exists_last _ (x0 :: core0)) as (core & a & E);
      [discriminate|].
    rewrite E in *.
    destruct (split_char_snoc_other SLASH a core
                (rstrip_char_last _ _ _ _ Hc)) as (front & z & Hs).
    rewrite Hs, last_last in H. destruct z; discriminate.
Qed.

(** X2: the id is empty exactly when the URL is empty or made of "/"
    only. *)
Theorem qiita_id_empty_iff (url : str) :
  qiita_id_from_url url = [] <-> forallb (eqc SLASH) url = true.
Proof.
  split.
  - apply qiita_id_nil_slashes.
  - intros H. unfold qiita_id_from_url.
    rewrite (rstrip_char_all _ _ H), split_char_nil. reflexivity.
Qed.

Lemma Forall2_In_r {A B : Type} (R : A -> B -> Prop) (xs : list A)
      (ys : list B) (y : B) :
  Forall2 R xs ys -> In y ys -> exists x, In x xs /\ R x y.
Proof.
  intros H. induction H as [|x y' xs ys Hxy _ IH]; [intros []|].
  intros [<-|Hin].
  - exists x. split; [left; reflexivity | exact Hxy].
  - destruct (IH Hin) as (x' & Hx' & HR). exists x'.
    split; [right; exact Hx' | exact HR].
Qed.

(** X3: every link the parser returns has a non-empty id: its output file is
    never the bare "qiita_.md". *)
Theorem parsed_links_have_ids (doc : str) (it : LinkItem) :
  In it (read_links_from_docs_readme doc) ->
  qiita_id_from_url (url it) <> [].
Proof.
  unfold read_links_from_docs_readme. intros Hin Hid.
  destruct (fold_loop_body (file_lines doc) []) as (vs & items & _ & Hf & H2).
  rewrite Hf in Hin. simpl in Hin.
  destruct (Forall2_In_r _ _ _ it H2 Hin) as (line & _ & Hl).
  destruct Hl as (pre & post & _ & _ & Hu).
  apply qiita_id_nil_slashes in Hid.
  destruct Hu as (body & _ & _ & [E|E]); rewrite E in Hid; discriminate.
Qed.

Lemma loop_body_from_empty (links : list LinkItem) (line : str) :
  loop_body links line = links ++ loop_body [] line.
Proof.
  unfold loop_body.
  destruct (negb _); [rewrite app_nil_r; reflexivity|].
  destruct (re_search_link (strip line)) as [[t u]|];
    [|rewrite app_nil_r; reflexivity].
  rewrite indent_of_stripped_line. destruct links; reflexivity.
Qed.

Lemma fold_loop_body_from_empty (ls : list str) (links : list LinkItem) :
  fold_left loop_body ls links = links ++ fold_left loop_body ls [].
Proof.
  revert links. induction ls as [|l ls IH]; intros links; simpl.
  - rewrite app_nil_r. reflexivity.
  - rewrite IH, (IH (loop_body [] l)), loop_body_from_empty, app_assoc.
    reflexivity.
Qed.

Lemma file_lines_terminated (d : str) : file_lines (d ++ [NL]) <> [].
Proof.
  destruct d as [|c d]; simpl; [discriminate|].
  destruct (eqc c NL); [discriminate|].
  destruct (file_lines (d ++ [NL])); discriminate.
Qed.

Lemma file_lines_app (d d2 : str) :
  file_lines ((d ++ [NL]) ++ d2) = file_lines (d ++ [NL]) ++ file_lines d2.
Proof.
  induction d as [|c d IH]; [reflexivity|].
  simpl. destruct (eqc c NL).
  - simpl. f_equal. exact IH.
  - rewrite IH. pose proof (file_lines_terminated d) as Hne.
    destruct (file_lines (d ++ [NL])); [contradiction | reflexivity].
Qed.

(** X5: the links of two documents put one after the other, the first ending
    with a newline, are the links of the first followed by those of the
    second. *)
Theorem read_links_of_concatenation (d d2 : str) :
  read_links_from_docs_readme ((d ++ [NL]) ++ d2)
  = read_links_from_docs_readme (d ++ [NL]) ++ read_links_from_docs_readme d2.
Proof.
  unfold read_links_from_docs_readme.
  rewrite file_lines_app, fold_left_app.
  apply fold_loop_body_from_empty.
Qed.

Lemma parsed_links_have_ids_witness :
  qiita_id_from_url (lit "https://a.example/x") <> [].
Proof.
  apply (parsed_links_have_ids indented_doc
           (mkLinkItem (lit "A") (lit "https://a.example/x") None)).
  vm_compute. left. reflexivity.
Defined.

End IdFacts.

(** ** The post-processing of the Markdown text *)

Section MarkdownMore.

Import MarkdownConverter MarkdownSpec TextSpec.



Lemma filter_visible_spaces (w : str) :
  forallb isspace w = true -> filter visible w = [].
Proof.
  induction w as [|c w IH]; [reflexivity|]. simpl. intros H.
  apply andb_prop in H as [Hc H]. unfold visible at 1. rewrite Hc. simpl.
  exact (IH H).
Qed.

Lemma filter_visible_not_NL (s : str) :
  filter visible (filter not_NL s) = filter visible s.
Proof.
  induction s as [|c s IH]; [reflexivity|]. simpl.
  unfold not_NL at 1. destruct (eqc c NL) eqn:E; simpl.
  - apply eqc_eq in E. subst c. exact IH.
  - rewrite IH. reflexivity.
Qed.

(** X6: [html_to_markdown_text] changes whitespace only.  The collapsing
    of the blank lines removes nothing but newlines, and every character
    of the converter's output that is not whitespace is in the result, in
    the same order. *)
Theorem html_to_markdown_text_keeps_text
  (article_markdown : str -> str) (html : str) :
  filter not_NL (sub_newlines (article_markdown html))
  = filter not_NL (article_markdown html)
  /\ filter visible (html_to_markdown_text article_markdown html)
     = filter visible (article_markdown html).
Proof.
  assert (H : filter not_NL (sub_newlines (article_markdown html))
              = filter not_NL (article_markdown html))
    by apply filter_sub_newlines_from.
  split; [exact H|].
  unfold html_to_markdown_text. cbv zeta.
  destruct (strip_decomp (sub_newlines (article_markdown html)))
    as (w1 & w2 & E & H1 & H2).
  rewrite <- (filter_visible_not_NL (article_markdown html)), <- H,
    filter_visible_not_NL.
  rewrite E at 2. rewrite !filter_app.
  rewrite (filter_visible_spaces w1 H1), (filter_visible_spaces w2 H2).
  rewrite app_nil_r. reflexivity.
Qed.

Lemma repeat_snoc (k : nat) (s : str) :
  repeat NL (S k) ++ s = repeat NL k ++ NL :: s.
Proof.
  induction k as [|k IH]; [reflexivity|].
  change (repeat NL (S (S k)) ++ s) with (NL :: (repeat NL (S k) ++ s)).
  rewrite IH. reflexivity.
Qed.

Lemma no_triple_short_run (run : nat) (s : str) :
  (forall a b, repeat NL run ++ s <> a ++ [NL; NL; NL] ++ b) ->
  emit_run run = repeat NL run.
Proof.
  intros H. unfold emit_run. destruct (3 <=? run) eqn:E; [|reflexivity].
  exfalso. apply Nat.leb_le in E.
  apply (H [] (repeat NL (run - 3) ++ s)).
  replace run with (3 + (run - 3)) at 1 by lia. reflexivity.
Qed.

(** A text without three newlines in a row is left as it is. *)
Lemma sub_newlines_from_fixed (s : str) (run : nat) :
  (forall a b, repeat NL run ++ s <> a ++ [NL; NL; NL] ++ b) ->
  sub_newlines_from run s = repeat NL run ++ s.
Proof.
  revert run. induction s as [|c s IH]; intros run H; simpl.
  - rewrite app_nil_r. exact (no_triple_short_run run [] H).
  - destruct (eqc c NL) eqn:E.
    + apply eqc_eq in E. subst c.
      rewrite <- repeat_snoc. apply IH. rewrite repeat_snoc. exact H.
    + rewrite (no_triple_short_run run _ H). f_equal. f_equal.
      apply (IH 0). intros a b Eq.
      apply (H (repeat NL run ++ c :: a) b).
      simpl in Eq. rewrite Eq, <- app_assoc. reflexivity.
Qed.

(** X7: the post-processing is idempotent: given its own result as the
    converter's output, [html_to_markdown_text] returns it unchanged. *)
Theorem html_to_markdown_text_idempotent
  (article_markdown : str -> str) (html html' : str) :
  html_to_markdown_text
    (fun _ => html_to_markdown_text article_markdown html) html'
  = html_to_markdown_text article_markdown html.
Proof.
  unfold html_to_markdown_text. cbv zeta.
  set (r := sub_newlines (article_markdown html)).
  assert (H : sub_newlines (strip r) = strip r).
  { unfold sub_newlines. apply (sub_newlines_from_fixed (strip r) 0).
    intros a b E. simpl in E.
    destruct (strip_decomp r) as (w1 & w2 & Hr & _ & _).
    rewrite E in Hr.
    apply (runs_below_3_sound r 0 (sub_newlines_runs _ 0)
             (w1 ++ a) (b ++ w2)).
    rewrite Hr, <- !app_assoc. reflexivity. }
  rewrite H. unfold strip at 1. rewrite lstrip_strip.
  unfold strip. apply rstrip_fix.
Qed.

End MarkdownMore.

(** ** The title has no whitespace around it *)

Section TitleMore.

Import TitleExtractor.

Lemma strip_app_fixed (a b : str) :
  strip a = a -> strip b = b -> strip (a ++ b) = a ++ b.
Proof.
  intros Ha Hb.
  destruct a as [|c a]; [exact Hb|].
  destruct b as [|d0 b0]; [rewrite app_nil_r; exact Ha|].
  destruct (@exists_last _ (d0 :: b0)) as (b' & d & E); [discriminate|].
  rewrite E in *.
  pose proof (strip_head _ _ _ Ha) as Hc.
  pose proof (strip_last _ _ _ Hb) as Hd.
  pose proof (strip_core [] c (a ++ b') d [] eq_refl eq_refl Hc Hd) as H.
  simpl in H. rewrite app_nil_r in H.
  change ((c :: a) ++ b' ++ [d]) with (c :: (a ++ b' ++ [d])).
  rewrite app_assoc. exact H.
Qed.

Lemma strip_fixed (s : str) : strip (strip s) = strip s.
Proof.
  unfold strip at 1. rewrite lstrip_strip. unfold strip. apply rstrip_fix.
Qed.

Lemma node_text_stripped (n : node) : strip (node_text n) = node_text n.
Proof.
  induction n as [s|s|nm contents IH] using node_induction.
  - simpl. apply strip_fixed.
  - reflexivity.
  - simpl. induction IH as [|m ms Hm _ IHms]; [reflexivity|].
    apply strip_app_fixed; assumption.
Qed.

(** X8: the title returned has no leading or trailing whitespace. *)
Theorem get_title_from_html_stripped (soup : list node) :
  strip (get_title_from_html soup) = get_title_from_html soup.
Proof.
  unfold get_title_from_html, get_text.
  assert (F : forall o : option node,
             strip (match o with
                    | Some t => match node_text t with
                                | [] => []
                                | _ :: _ => node_text t
                                end
                    | None => []
                    end)
             = match o with
               | Some t => match node_text t with
                           | [] => []
                           | _ :: _ => node_text t
                           end
               | None => []
               end).
  { intros [t|]; [|reflexivity].
    destruct (node_text t) eqn:E; [reflexivity|].
    rewrite <- E. apply node_text_stripped. }
  destruct (find (lit "h1") soup) as [h|]; [|apply F].
  destruct (node_text h) eqn:E; [apply F|].
  rewrite <- E. apply node_text_stripped.
Qed.

End TitleMore.

(** ** More on the translator *)

Section TranslatorMore.

Import Translator TranslatorSpec TextSpec.


Lemma for_each_calls {A B : Type} (f : A -> M B) (g : A -> list str)
      (xs : list A) :
  (forall x calls, exists y, f x calls = (Return y, calls ++ g x)) ->
  forall calls, exists ys,
    for_each f xs calls = (Return ys, calls ++ flat_map g xs).
Proof.
  intros H. induction xs as [|x xs IH]; intros calls; simpl.
  - exists []. rewrite app_nil_r. reflexivity.
  - unfold bind. destruct (H x calls) as (y & ->).
    destruct (IH (calls ++ g x)) as (ys & ->).
    exists (y :: ys). rewrite app_assoc. reflexivity.
Qed.

Lemma flat_map_singleton {A : Type} (xs : list A) :
  flat_map (fun x => [x]) xs = xs.
Proof. induction xs as [|x xs IH]; simpl; [|rewrite IH]; reflexivity. Qed.

Lemma substituting_chunk_calls translate (c : str) (calls : list str) :
  exists y,
    translate_chunk (substituting translate) c calls
    = (Return y, calls ++ [c]).
Proof.
  unfold translate_chunk, try_except_Exception, translator_translate,
    substituting.
  destruct (translate calls c); eexists; reflexivity.
Qed.

Lemma substituting_block_calls translate (p : str) (calls : list str) :
  exists y,
    translate_block (substituting translate) p calls
    = (Return y, calls ++ paragraph_chunks p).
Proof.
  unfold translate_block, paragraph_chunks.
  destruct (strip p) as [|c b].
  - exists []. rewrite app_nil_r. reflexivity.
  - unfold bind.
    destruct (for_each_calls (translate_chunk (substituting translate))
                (fun c => [c]) (pack_chunks (c :: b))
                (substituting_chunk_calls translate) calls) as (ys & ->).
    rewrite flat_map_singleton. eexists. reflexivity.
Qed.

(** X9: whatever errors the backend raises, it is called exactly once for each
    chunk of each paragraph that is not blank, in the order of the text:
    a failure neither skips nor repeats a call. *)
Theorem backend_called_once_per_chunk
  (translate : list str -> str -> outcome str) (text : str) :
  (forall cs chunk e, translate cs chunk = Raise e -> is_Exception e = true) ->
  snd (translate_text translate text []) =
  match strip text with
  | [] => []
  | _ :: _ => flat_map paragraph_chunks (split [NL; NL] text)
  end.
Proof.
  intros H. rewrite (translate_text_substituting translate H).
  unfold translate_text. destruct (strip text) as [|c t]; [reflexivity|].
  unfold bind.
  destruct (for_each_calls (translate_block (substituting translate))
              paragraph_chunks (split [NL; NL] text)
              (substituting_block_calls translate) []) as (ys & ->).
  reflexivity.
Qed.

Lemma identity_block_twice (p : str) :
  identity_block (identity_block p) = identity_block p.
Proof.
  unfold identity_block at 1. rewrite strip_identity_block. reflexivity.
Qed.

(** X10: with the identity backend the translator is idempotent: translating
    its own output again returns that output. *)
Theorem identity_translation_idempotent (text : str) :
  exists out calls calls',
    translate_text identity_backend text [] = (Return out, calls)
    /\ translate_text identity_backend out [] = (Return out, calls').
Proof.
  destruct (strip text) as [|c t] eqn:Et.
  - exists text, [], []. unfold translate_text. rewrite Et. auto.
  - destruct (translate_text_identity text []) as (calls & E);
      [rewrite Et; discriminate|].
    set (out := join [NL; NL] (map identity_block (split [NL; NL] text))) in *.
    destruct (strip out) as [|c' t'] eqn:Eo.
    + exists out, calls, []. split; [exact E|].
      unfold translate_text. rewrite Eo. reflexivity.
    + destruct (translate_text_identity out []) as (calls' & E');
        [rewrite Eo; discriminate|].
      exists out, calls, calls'. split; [exact E|].
      rewrite E'. f_equal. f_equal. subst out.
      rewrite identity_output_paragraphs, map_map.
      f_equal. apply map_ext. apply identity_block_twice.
Qed.

(** X11: a text whose paragraphs have no whitespace around them and a
    first line of at most 3499 characters (the test of line 108 counts the
    line and one separator against the margin of 3500) comes back from the
    identity backend exactly as it was. *)
Theorem identity_translation_exact (text : str) :
  Forall (fun p => strip p = p
                   /\ length (hd [] (split [NL] p)) + 1 <= SAFETY_MARGIN)
         (split [NL; NL] text) ->
  exists calls,
    translate_text identity_backend text [] = (Return text, calls).
Proof.
  intros H. destruct (strip text) as [|c t] eqn:Et.
  - exists []. unfold translate_text. rewrite Et. reflexivity.
  - destruct (translate_text_identity text []) as (calls & E);
      [rewrite Et; discriminate|].
    exists calls. rewrite E. f_equal. f_equal.
    rewrite <- (join_split NL [NL] text) at 2. f_equal.
    rewrite <- (map_id (split [NL; NL] text)) at 2.
    apply map_ext_in. intros p Hin.
    rewrite Forall_forall in H. destruct (H p Hin) as [Hs Hl].
    rewrite identity_block_shape, Hs.
    destruct p as [|x p']; [reflexivity|].
    apply Nat.ltb_ge in Hl. rewrite Hl. reflexivity.
Qed.

End TranslatorMore.

Section TranslatorMoreWitnesses.

Import Translator TranslatorSpec FurtherInputs.

Lemma backend_called_once_per_chunk_witness :
  snd (translate_text failing_backend (lit "a") []) = [lit "a"].
Proof.
  apply (backend_called_once_per_chunk failing_backend (lit "a")).
  intros cs chunk e H. injection H as <-. reflexivity.
Defined.


Lemma identity_translation_exact_witness :
  exists calls,
    translate_text identity_backend two_paragraphs []
    = (Return two_paragraphs, calls).
Proof.
  apply (identity_translation_exact two_paragraphs).
  vm_compute. repeat constructor.
Defined.

End TranslatorMoreWitnesses.

(** ** What [except Exception] lets through *)

Section Interrupts.

Import Translator TranslatorSpec.

Variable translate : list str -> str -> outcome str.
Variable e : exn.
Hypothesis not_an_error : is_Exception e = false.
Hypothesis always_raises : forall calls chunk, translate calls chunk = Raise e.

Lemma pack_lines_not_nil (first : str) (rest : list str) :
  pack_lines (first :: rest) <> [].
Proof.
  unfold pack_lines. cbn [fold_left].
  set (st1 := pack_line (mkPacking [] [] 0) first).
  assert (Hc : current st1 <> []).
  { subst st1. unfold pack_line.
    destruct (SAFETY_MARGIN <? _); cbn [current]; discriminate. }
  destruct (pack_fold_text rest st1 Hc) as [Hc' _].
  destruct (current (fold_left pack_line rest st1)); [contradiction|].
  destruct (chunks _); discriminate.
Qed.

Lemma translate_block_interrupted (p : str) (calls : list str) :
  strip p <> [] -> fst (translate_block translate p calls) = Raise e.
Proof.
  intros Hp. unfold translate_block.
  destruct (strip p) as [|c b]; [contradiction|].
  unfold pack_chunks.
  destruct (split [NL] (c :: b)) as [|first rest] eqn:Es;
    [exfalso; exact (split_not_nil _ _ Es)|].
  pose proof (pack_lines_not_nil first rest) as Hne.
  destruct (pack_lines (first :: rest)) as [|chunk more]; [contradiction|].
  unfold bind. simpl for_each. unfold bind, translate_chunk,
    try_except_Exception, translator_translate.
  rewrite always_raises, not_an_error. reflexivity.
Qed.

Lemma translate_block_blank (p : str) (calls : list str) :
  strip p = [] -> translate_block translate p calls = (Return [], calls).
Proof. intros Hp. unfold translate_block. rewrite Hp. reflexivity. Qed.

Lemma for_each_block_interrupted (ps : list str) (calls : list str) :
  Exists (fun p => strip p <> []) ps ->
  fst (for_each (translate_block translate) ps calls) = Raise e.
Proof.
  intros H. revert calls. induction H as [p ps Hp | p ps _ IH]; intros calls.
  - simpl. unfold bind.
    pose proof (translate_block_interrupted p calls Hp) as E.
    destruct (translate_block translate p calls) as [[y|e'] calls1];
      simpl in E; [discriminate|]. simpl.
    injection E as ->. reflexivity.
  - simpl. unfold bind. destruct (strip p) as [|c b] eqn:Es.
    + rewrite (translate_block_blank p calls Es).
      specialize (IH calls).
      destruct (for_each (translate_block translate) ps calls)
        as [[ys|e'] calls1]; simpl in IH; [discriminate|]. exact IH.
    + assert (Hp : strip p <> []) by (rewrite Es; discriminate).
      pose proof (translate_block_interrupted p calls Hp) as E.
      destruct (translate_block translate p calls) as [[y|e'] calls1];
        simpl in E; [discriminate|]. simpl.
    injection E as ->. reflexivity.
Qed.

Lemma blank_is_whitespace (p : str) :
  strip p = [] -> forallb isspace p = true.
Proof.
  intros H. destruct (strip_decomp p) as (w1 & w2 & E & H1 & H2).
  rewrite H in E. rewrite E. simpl. rewrite forallb_app, H1, H2. reflexivity.
Qed.

Lemma join_blank (ps : list str) :
  Forall (fun p => strip p = []) ps ->
  forallb isspace (join [NL; NL] ps) = true.
Proof.
  intros H. induction H as [|p ps Hp _ IH]; [reflexivity|].
  destruct ps as [|q ps]; [exact (blank_is_whitespace p Hp)|].
  rewrite join_cons by discriminate.
  rewrite !forallb_app, (blank_is_whitespace p Hp), IH. reflexivity.
Qed.

Lemma some_paragraph_not_blank (text : str) :
  strip text <> [] -> Exists (fun p => strip p <> []) (split [NL; NL] text).
Proof.
  intros Ht. apply neg_Forall_Exists_neg.
  - intros p. destruct (strip p); [left; reflexivity | right; discriminate].
  - intros Hb. apply Ht.
    apply join_blank in Hb. rewrite join_split in Hb.
    unfold strip, lstrip.
    pose proof (dropwhile_all isspace text [] Hb) as E.
    rewrite app_nil_r in E. rewrite E. reflexivity.
Qed.

(** X12: a signal that is not an [Exception] (a keyboard interrupt, say) is
    never swallowed: raised by the backend, it comes out of
    [translate_text] for every text that is not blank. *)
Theorem interrupt_leaves_translate_text (text : str) :
  strip text <> [] ->
  fst (translate_text translate text []) = Raise e.
Proof.
  intros Ht. unfold translate_text.
  pose proof (for_each_block_interrupted _ [] (some_paragraph_not_blank text Ht))
    as E.
  destruct (strip text) as [|c t]; [contradiction|].
  unfold bind.
  destruct (for_each (translate_block translate) (split [NL; NL] text) [])
    as [[ys|e'] calls1]; simpl in E; [discriminate|]. simpl.
    injection E as ->. reflexivity.
Qed.

End Interrupts.

Section InterruptsWitness.

Import Translator FurtherInputs.


Lemma interrupt_leaves_translate_text_witness :
  fst (translate_text interrupted_backend (lit "a") [])
  = Raise (BaseExceptionOnly (lit "KeyboardInterrupt")).
Proof.
  apply (interrupt_leaves_translate_text interrupted_backend
           (BaseExceptionOnly (lit "KeyboardInterrupt")) eq_refl
           (fun _ _ => eq_refl) (lit "a")).
  vm_compute. discriminate.
Defined.

End InterruptsWitness.


(** Comparisons of code points, from booleans to linear arithmetic *)
Ltac code_point_ranges :=
  repeat match goal with
         | H : _ || _ = true |- _ => apply orb_prop in H; destruct H
         | H : _ && _ = true |- _ => apply andb_prop in H; destruct H
         | H : (_ <=? _)%N = true |- _ => apply N.leb_le in H
         | H : (_ =? _)%N = true |- _ => apply N.eqb_eq in H
         end;
  lia.

Section SlugifyFacts.

Import Slugify SlugSpec.

Variable lower : str -> str.

Lemma sub_class_runs_forallb (P cls : char -> bool) (repl : str) (b : bool)
      (s : str) :
  forallb P repl = true -> forallb P s = true ->
  forallb P (sub_class_runs cls repl b s) = true.
Proof.
  intros Hr. revert b. induction s as [|c s IH]; intros b Hs; [reflexivity|].
  simpl in Hs. apply andb_prop in Hs as [Hc Hs]. simpl.
  destruct (cls c).
  - rewrite forallb_app, (IH true Hs). destruct b; [reflexivity|].
    rewrite Hr. reflexivity.
  - simpl. rewrite Hc, (IH false Hs). reflexivity.
Qed.

Lemma sub_class_runs_delete (cls : char -> bool) (b : bool) (s : str) :
  forallb (fun c => negb (cls c)) (sub_class_runs cls [] b s) = true.
Proof.
  revert b. induction s as [|c s IH]; intros b; [reflexivity|].
  simpl. destruct (cls c) eqn:E.
  - destruct b; simpl; apply IH.
  - simpl. rewrite E, IH. reflexivity.
Qed.

Lemma strip_char_decomp (c : char) (s : str) :
  exists w1 w2, s = w1 ++ strip_char c s ++ w2.
Proof.
  unfold strip_char.
  destruct (dropwhile_decomp (eqc c) s) as (w1 & E1 & _).
  destruct (dropwhile_decomp (eqc c) (rev (dropwhile (eqc c) s)))
    as (w2 & E2 & _).
  exists w1, (rev w2).
  rewrite <- rev_app_distr, <- E2, rev_involutive. exact E1.
Qed.

Lemma strip_char_head (c : char) (s r : str) (x : char) :
  strip_char c s = x :: r -> eqc c x = false.
Proof.
  unfold strip_char. intros H.
  destruct (dropwhile_decomp (eqc c) (rev (dropwhile (eqc c) s)))
    as (w & E & _).
  apply (f_equal (@rev _)) in E.
  rewrite rev_involutive, rev_app_distr, H in E. simpl in E.
  exact (dropwhile_head _ _ _ _ E).
Qed.

Lemma strip_char_last (c : char) (s r : str) (x : char) :
  strip_char c s = r ++ [x] -> eqc c x = false.
Proof.
  unfold strip_char. intros H.
  apply (f_equal (@rev _)) in H.
  rewrite rev_involutive, rev_app_distr in H. simpl in H.
  exact (dropwhile_head _ _ _ _ H).
Qed.

(** After [re.sub(r"-+", "-", s)] no two dashes are adjacent. *)
Lemma dash_runs_collapsed (s : str) (b : bool) :
  (b = true -> forall t, sub_class_runs (eqc DASH) (lit "-") b s <> DASH :: t)
  /\ (forall a t, sub_class_runs (eqc DASH) (lit "-") b s
                  <> a ++ [DASH; DASH] ++ t).
Proof.
  revert b. induction s as [|c s IH]; intros b.
  - split; [intros _ t; discriminate|]. intros [|x a] t; discriminate.
  - cbn [sub_class_runs]. destruct (eqc DASH c) eqn:E.
    + destruct (IH true) as [Hl Hd]. destruct b.
      * split; [intros _; exact (Hl eq_refl) | exact Hd].
      * change (lit "-") with [DASH] in *. cbn [app].
        split; [discriminate|]. intros [|x a] t Eq.
        -- simpl in Eq. injection Eq as Eq. exact (Hl eq_refl _ Eq).
        -- simpl in Eq. injection Eq as _ Eq. exact (Hd _ _ Eq).
    + destruct (IH false) as [_ Hd]. split.
      * intros _ t Eq. injection Eq as Eq _. subst c.
        rewrite eqc_refl in E. discriminate.
      * intros [|x a] t Eq.
        -- simpl in Eq. injection Eq as Eq _. subst c.
           rewrite eqc_refl in E. discriminate.
        -- simpl in Eq. injection Eq as _ Eq. exact (Hd _ _ Eq).
Qed.


Lemma slugify_slug_text (value : str) : slug_text (slugify lower value).
Proof.
  unfold slugify. cbv zeta.
  set (v2 := sub_class_runs (fun c => negb (slug_char c)) [] false _).
  set (v3 := sub_class_runs (eqc DASH) (lit "-") false v2).
  assert (H2 : forallb slug_char v2 = true).
  { pose proof (sub_class_runs_delete (fun c => negb (slug_char c)) false
                  (sub_class_runs space_or_slash (lit "-") false
                     (lower (strip value)))) as H.
    fold v2 in H. rewrite forallb_forall in *. intros x Hx.
    specialize (H x Hx). destruct (slug_char x); [reflexivity|discriminate]. }
  assert (H3 : forallb slug_char v3 = true)
    by (apply sub_class_runs_forallb; [reflexivity | exact H2]).
  destruct (strip_char_decomp DASH v3) as (w1 & w2 & E).
  destruct (strip_char DASH v3) as [|c r] eqn:Es.
  - unfold slug_text. repeat split; try discriminate.
    + intros [|a [|b' [|c' [|d' [|x t]]]]]; discriminate.
    + intros [|a [|b' [|c' [|d' [|x a']]]]] t; discriminate.
  - unfold slug_text. repeat split.
    + rewrite E, !forallb_app in H3.
      apply andb_prop in H3 as [_ H3]. apply andb_prop in H3 as [H3 _].
      exact H3.
    + discriminate.
    + intros t Eq. injection Eq as -> _.
      apply strip_char_head in Es. discriminate.
    + intros t Eq. rewrite Eq in Es. apply strip_char_last in Es.
      discriminate.
    + intros a t Eq. rewrite Eq in E.
      apply (proj2 (dash_runs_collapsed v2 false) (w1 ++ a) (t ++ w2)).
      fold v3. rewrite E, <- !app_assoc. reflexivity.
Qed.

(** X13: a slug is never empty and is made of the characters a-z, 0-9 and "-"
    only, whatever the input. *)
Theorem slugify_alphabet (value : str) :
  slugify lower value <> []
  /\ forallb slug_char (slugify lower value) = true.
Proof.
  destruct (slugify_slug_text value) as (H1 & H2 & _). auto.
Qed.

(** X14: a slug neither starts nor ends with "-" and has no two "-" in a row. *)
Theorem slugify_dashes (value : str) :
  (forall t, slugify lower value <> DASH :: t)
  /\ (forall t, slugify lower value <> t ++ [DASH])
  /\ (forall a t, slugify lower value <> a ++ [DASH; DASH] ++ t).
Proof.
  destruct (slugify_slug_text value) as (_ & _ & H). exact H.
Qed.

End SlugifyFacts.

Section SlugifyAgain.

Import Slugify SlugSpec.

Lemma sub_class_runs_none (cls : char -> bool) (repl : str) (b : bool)
      (s : str) :
  forallb (fun c => negb (cls c)) s = true ->
  sub_class_runs cls repl b s = s.
Proof.
  revert b. induction s as [|c s IH]; intros b H; [reflexivity|].
  simpl in H. apply andb_prop in H as [Hc H]. simpl.
  destruct (cls c); [discriminate|]. rewrite (IH false H). reflexivity.
Qed.

Lemma dash_runs_fixed (s : str) (b : bool) :
  (b = true -> forall t, s <> DASH :: t) ->
  (forall a t, s <> a ++ [DASH; DASH] ++ t) ->
  sub_class_runs (eqc DASH) (lit "-") b s = s.
Proof.
  revert b. induction s as [|c s IH]; intros b Hl Hd; [reflexivity|].
  cbn [sub_class_runs]. destruct (eqc DASH c) eqn:E.
  - apply eqc_eq in E. subst c. destruct b.
    + exfalso. exact (Hl eq_refl s eq_refl).
    + change (lit "-") with [DASH]. cbn [app]. f_equal.
      apply IH.
      * intros _ t Eq. subst s. exact (Hd [] t eq_refl).
      * intros a t Eq. subst s. exact (Hd (DASH :: a) t eq_refl).
  - f_equal. apply IH; [discriminate|].
    intros a t Eq. subst s. exact (Hd (c :: a) t eq_refl).
Qed.

Lemma dropwhile_none (p : char -> bool) (s : str) :
  match s with [] => True | x :: _ => p x = false end ->
  dropwhile p s = s.
Proof.
  destruct s as [|x s]; [reflexivity|]. intros H. simpl. rewrite H.
  reflexivity.
Qed.

Lemma strip_char_fixed (c : char) (s : str) :
  (forall t, s <> c :: t) -> (forall t, s <> t ++ [c]) ->
  strip_char c s = s.
Proof.
  intros Hl Hr. unfold strip_char.
  rewrite (dropwhile_none (eqc c) s).
  - rewrite dropwhile_none; [apply rev_involutive|].
    destruct (rev s) as [|x r] eqn:E; [exact I|].
    destruct (eqc c x) eqn:Ex; [|reflexivity].
    apply eqc_eq in Ex. subst x. exfalso. apply (Hr (rev r)).
    rewrite <- (rev_involutive s), E. reflexivity.
  - destruct s as [|x r]; [exact I|].
    destruct (eqc c x) eqn:Ex; [|reflexivity].
    apply eqc_eq in Ex. subst x. exfalso. exact (Hl r eq_refl).
Qed.

Lemma slug_char_not_space (c : char) :
  slug_char c = true -> space_or_slash c = false.
Proof.
  unfold slug_char, space_or_slash, isspace, eqc, DASH, SLASH.
  intros H. apply not_true_is_false. intros H'. code_point_ranges.
Qed.

Lemma slug_text_no_space (r : str) :
  forallb slug_char r = true -> forall c, In c r -> isspace c = false.
Proof.
  intros H c Hc. rewrite forallb_forall in H.
  pose proof (slug_char_not_space c (H c Hc)) as Hs.
  unfold space_or_slash in Hs. apply orb_false_elim in Hs as [Hs _].
  exact Hs.
Qed.

Lemma strip_no_space (r : str) :
  (forall c, In c r -> isspace c = false) -> strip r = r.
Proof.
  intros H. unfold strip, lstrip, rstrip.
  assert (D : forall s, (forall c, In c s -> isspace c = false) ->
                        dropwhile isspace s = s).
  { intros s Hs. apply dropwhile_none. destruct s as [|x s]; [exact I|].
    apply Hs. left. reflexivity. }
  rewrite (D r H). rewrite D; [apply rev_involutive|].
  intros c Hc. apply H. apply in_rev. exact Hc.
Qed.

Variable lower : str -> str.

(** Lower-casing leaves a text of lower-case letters, digits and "-" as
    it is. *)
Hypothesis lower_slug :
  forall s, forallb slug_char s = true -> lower s = s.

Lemma slugify_of_slug_text (r : str) : slug_text r -> slugify lower r = r.
Proof.
  intros (Ha & Hn & Hl & Hr & Hd). unfold slugify. cbv zeta.
  rewrite (strip_no_space r (slug_text_no_space r Ha)).
  rewrite (lower_slug r Ha).
  rewrite (sub_class_runs_none space_or_slash (lit "-") false r).
  2:{ rewrite forallb_forall in *. intros c Hc.
      rewrite (slug_char_not_space c (Ha c Hc)). reflexivity. }
  rewrite (sub_class_runs_none (fun c => negb (slug_char c)) [] false r).
  2:{ rewrite forallb_forall in *. intros c Hc. rewrite (Ha c Hc).
      reflexivity. }
  rewrite (dash_runs_fixed r false); [|discriminate|exact Hd].
  rewrite (strip_char_fixed DASH r Hl Hr).
  destruct r; [contradiction|reflexivity].
Qed.

(** X15: a slug is its own slug: [slugify] is idempotent, for a lower-casing
    that leaves lower-case letters, digits and "-" alone. *)
Theorem slugify_idempotent (value : str) :
  slugify lower (slugify lower value) = slugify lower value.
Proof.
  apply slugify_of_slug_text. apply slugify_slug_text.
Qed.

(** X16: a text that already has the shape of a slug is returned as it is. *)
Theorem slugify_keeps_slugs (r : str) :
  forallb slug_char r = true -> r <> [] ->
  (forall t, r <> DASH :: t) -> (forall t, r <> t ++ [DASH]) ->
  (forall a t, r <> a ++ [DASH; DASH] ++ t) ->
  slugify lower r = r.
Proof.
  intros Ha Hn Hl Hr Hd. apply slugify_of_slug_text.
  unfold slug_text. auto.
Qed.

End SlugifyAgain.

Section SlugifyWitnesses.

Import Slugify.

Lemma ascii_lower_slug (s : str) :
  forallb slug_char s = true -> ascii_lower s = s.
Proof.
  induction s as [|c s IH]; [reflexivity|]. simpl. intros H.
  apply andb_prop in H as [Hc H]. rewrite (IH H). f_equal.
  destruct ((65 <=? c) && (c <=? 90))%N eqn:E; [|reflexivity].
  exfalso. unfold slug_char, eqc, DASH in Hc. code_point_ranges.
Qed.

Lemma slugify_idempotent_witness :
  slugify ascii_lower (slugify ascii_lower (lit " Hello / World--2 "))
  = slugify ascii_lower (lit " Hello / World--2 ")
  /\ slugify ascii_lower (lit " Hello / World--2 ") = lit "hello-world-2".
Proof.
  split.
  - apply (slugify_idempotent ascii_lower ascii_lower_slug).
  - vm_compute. reflexivity.
Defined.

Lemma slug_shape_no_double (a t : str) :
  lit "a-b" <> a ++ [DASH; DASH] ++ t.
Proof.
  destruct a as [|x [|y [|z [|w a]]]]; simpl; discriminate.
Qed.

Lemma slugify_keeps_slugs_witness : slugify ascii_lower (lit "a-b") = lit "a-b".
Proof.
  apply (slugify_keeps_slugs ascii_lower ascii_lower_slug (lit "a-b")).
  - reflexivity.
  - discriminate.
  - intros t; discriminate.
  - intros [|x [|y [|z [|w t]]]]; discriminate.
  - exact slug_shape_no_double.
Defined.

End SlugifyWitnesses.


Section ContentNodeInduction.

Import ContentExtractor.

Variable P : node -> Prop.
Hypothesis P_string : forall s, P (NavigableString s).
Hypothesis P_tag :
  forall name classes contents,
    Forall P contents -> P (Tag name classes contents).

Fixpoint content_node_induction (n : node) : P n :=
  match n with
  | NavigableString s => P_string s
  | Tag name classes contents =>
      P_tag name classes contents
        ((fix all (ns : list node) : Forall P ns :=
            match ns with
            | [] => Forall_nil P
            | m :: ns' => Forall_cons m (content_node_induction m) (all ns')
            end) contents)
  end.

End ContentNodeInduction.

Section ExtractorFacts.

Import ContentExtractor ExtractorSpec.


Lemma kept_cons (m : node) (ns : list node) :
  kept (m :: ns)
  = if non_content m then kept ns else decompose_all m :: kept ns.
Proof. unfold kept. simpl. destruct (non_content m); reflexivity. Qed.

Lemma decompose_all_Tag (name : str) (classes : list str) (c : list node) :
  decompose_all (Tag name classes c) = Tag name classes (kept c).
Proof. reflexivity. Qed.

Lemma descendants_Tag (name : str) (classes : list str) (c : list node) :
  descendants (Tag name classes c)
  = flat_map (fun m => m :: descendants m) c.
Proof. reflexivity. Qed.

Lemma non_content_decompose (m : node) :
  non_content (decompose_all m) = non_content m.
Proof. destruct m; reflexivity. Qed.

Lemma str_eqb_eq (a b : str) : str_eqb a b = true -> a = b.
Proof.
  unfold str_eqb. revert b.
  induction a as [|x a IH]; intros [|y b] H; simpl in H;
    try discriminate; [reflexivity|].
  apply andb_prop in H as [Hx H]. apply eqc_eq in Hx. subst y.
  rewrite (IH b H). reflexivity.
Qed.

(** *** Nothing of the page furniture is left *)

Lemma kept_content_only (c : list node) :
  Forall (fun m => content_only (descendants (decompose_all m))) c ->
  content_only (flat_map (fun m => m :: descendants m) (kept c)).
Proof.
  induction 1 as [|m c Hm _ IH]; [constructor|].
  rewrite kept_cons. destruct (non_content m) eqn:E; [exact IH|].
  simpl. constructor.
  - rewrite non_content_decompose. exact E.
  - apply Forall_app. split; [exact Hm | exact IH].
Qed.

Lemma decompose_all_content_only (n : node) :
  content_only (descendants (decompose_all n)).
Proof.
  induction n as [s|name classes c IH] using content_node_induction.
  - constructor.
  - rewrite decompose_all_Tag, descendants_Tag.
    apply kept_content_only. exact IH.
Qed.

(** *** Content is left alone *)

Lemma kept_clean (c : list node) :
  Forall (fun m => content_only (descendants m) -> decompose_all m = m) c ->
  content_only (flat_map (fun m => m :: descendants m) c) ->
  kept c = c.
Proof.
  induction 1 as [|m c Hm _ IH]; intros Hc; [reflexivity|].
  simpl in Hc. apply Forall_cons_iff in Hc as [H1 Hc].
  apply Forall_app in Hc as [H2 Hc].
  rewrite kept_cons, H1, (Hm H2), (IH Hc). reflexivity.
Qed.

Lemma decompose_all_clean (n : node) :
  content_only (descendants n) -> decompose_all n = n.
Proof.
  induction n as [s|name classes c IH] using content_node_induction;
    intros H; [reflexivity|].
  rewrite decompose_all_Tag. f_equal. apply kept_clean; assumption.
Qed.

(** *** Selecting again *)

Lemma select_in_self (sel : str -> list str -> bool) (name : str)
      (classes : list str) (c : list node) :
  sel name classes = true ->
  select_in sel (Tag name classes c) = Some (Tag name classes c).
Proof. intros H. simpl. rewrite H. reflexivity. Qed.

Lemma first_some_found (sel : str -> list str -> bool) (c : list node)
      (r : node) :
  Forall (fun m => select_in sel m = Some r ->
                   exists name classes c',
                     r = Tag name classes c' /\ sel name classes = true) c ->
  first_some (select_in sel) c = Some r ->
  exists name classes c', r = Tag name classes c' /\ sel name classes = true.
Proof.
  induction 1 as [|m c Hm _ IH]; intros H; [discriminate|].
  simpl in H. destruct (select_in sel m) as [r'|] eqn:E.
  - apply Hm. rewrite <- H. reflexivity.
  - exact (IH H).
Qed.

Lemma select_in_found (sel : str -> list str -> bool) (r n : node) :
  select_in sel n = Some r ->
  exists name classes c, r = Tag name classes c /\ sel name classes = true.
Proof.
  induction n as [s|name classes c IH] using content_node_induction;
    intros H; [discriminate|].
  simpl in H. destruct (sel name classes) eqn:E.
  - injection H as <-. exists name, classes, c. auto.
  - exact (first_some_found sel c r IH H).
Qed.

Lemma select_one_found (sel : str -> list str -> bool) (soup : list node)
      (r : node) :
  select_one sel soup = Some r ->
  exists name classes c, r = Tag name classes c /\ sel name classes = true.
Proof.
  apply first_some_found. apply Forall_forall. intros m _.
  apply select_in_found.
Qed.

Lemma first_some_kept_none (sel : str -> list str -> bool) (c : list node) :
  Forall (fun m => select_in sel m = None ->
                   select_in sel (decompose_all m) = None) c ->
  first_some (select_in sel) c = None ->
  first_some (select_in sel) (kept c) = None.
Proof.
  induction 1 as [|m c Hm _ IH]; intros H; [reflexivity|].
  simpl in H. destruct (select_in sel m) eqn:E; [discriminate|].
  rewrite kept_cons. destruct (non_content m); [exact (IH H)|].
  simpl. rewrite (Hm eq_refl). exact (IH H).
Qed.

Lemma select_in_decompose_none (sel : str -> list str -> bool) (n : node) :
  select_in sel n = None -> select_in sel (decompose_all n) = None.
Proof.
  induction n as [s|name classes c IH] using content_node_induction;
    intros H; [reflexivity|].
  rewrite decompose_all_Tag. simpl in *.
  destruct (sel name classes); [discriminate|].
  exact (first_some_kept_none sel c IH H).
Qed.

Lemma select_one_kept_none (sel : str -> list str -> bool)
      (soup : list node) :
  select_one sel soup = None -> select_one sel (kept soup) = None.
Proof.
  apply first_some_kept_none. apply Forall_forall. intros m _.
  apply select_in_decompose_none.
Qed.

Lemma first_some_inside (sel1 sel2 : str -> list str -> bool)
      (c : list node) (r : node) :
  Forall (fun m => select_in sel1 m = None -> select_in sel2 m = Some r ->
                   select_in sel1 r = None) c ->
  first_some (select_in sel1) c = None ->
  first_some (select_in sel2) c = Some r ->
  select_in sel1 r = None.
Proof.
  induction 1 as [|m c Hm _ IH]; intros H1 H2; [discriminate|].
  simpl in H1, H2. destruct (select_in sel1 m) eqn:E1; [discriminate|].
  destruct (select_in sel2 m) as [r'|] eqn:E2.
  - apply Hm; [reflexivity|]. rewrite <- H2. reflexivity.
  - exact (IH H1 H2).
Qed.

Lemma select_in_inside (sel1 sel2 : str -> list str -> bool) (r n : node) :
  select_in sel1 n = None -> select_in sel2 n = Some r ->
  select_in sel1 r = None.
Proof.
  induction n as [s|name classes c IH] using content_node_induction;
    intros H1 H2; [discriminate|].
  pose proof H1 as H1'. simpl in H1, H2.
  destruct (sel1 name classes) eqn:E1; [discriminate|].
  destruct (sel2 name classes).
  - injection H2 as <-. exact H1'.
  - exact (first_some_inside sel1 sel2 c r IH H1 H2).
Qed.

Lemma select_one_inside (sel1 sel2 : str -> list str -> bool)
      (soup : list node) (r : node) :
  select_one sel1 soup = None -> select_one sel2 soup = Some r ->
  select_in sel1 r = None.
Proof.
  apply first_some_inside. apply Forall_forall. intros m _.
  apply select_in_inside.
Qed.

Lemma kept_kept (c : list node) :
  Forall (fun m => decompose_all (decompose_all m) = decompose_all m) c ->
  kept (kept c) = kept c.
Proof.
  induction 1 as [|m c Hm _ IH]; [reflexivity|].
  rewrite kept_cons. destruct (non_content m) eqn:E; [exact IH|].
  rewrite kept_cons, non_content_decompose, E, Hm, IH. reflexivity.
Qed.

Lemma decompose_all_twice (n : node) :
  decompose_all (decompose_all n) = decompose_all n.
Proof.
  induction n as [s|name classes c IH] using content_node_induction;
    [reflexivity|].
  rewrite !decompose_all_Tag. f_equal. exact (kept_kept c IH).
Qed.

Lemma kept_twice (soup : list node) : kept (kept soup) = kept soup.
Proof.
  apply kept_kept. apply Forall_forall. intros m _.
  apply decompose_all_twice.
Qed.

Lemma extract_single (sel : str -> list str -> bool) (name : str)
      (classes : list str) (c : list node) :
  sel name classes = true ->
  select_one sel [decompose_all (Tag name classes c)]
  = Some (decompose_all (Tag name classes c)).
Proof.
  intros H. unfold select_one. rewrite decompose_all_Tag. simpl.
  rewrite H. reflexivity.
Qed.

(** X17: no [script], [style], [nav], [header], [footer] or [aside] tag is left
    anywhere below the root of the extracted tree, whatever the page. *)
Theorem extract_article_content_only (soup : list node) :
  Forall (fun d => non_content d = false)
         (descendants (extract_article soup)).
Proof.
  unfold extract_article. cbv zeta. apply decompose_all_content_only.
Qed.

(** X18: when the page has an [article] with none of the six tags inside, the
    extracted tree is that article, unchanged, whatever is around it. *)
Theorem extract_article_keeps_clean_article (soup : list node) (a : node) :
  select_one is_article soup = Some a ->
  Forall (fun d => non_content d = false) (descendants a) ->
  extract_article soup = a.
Proof.
  intros Hs Hc. unfold extract_article. rewrite Hs. cbv zeta.
  apply decompose_all_clean. exact Hc.
Qed.

(** X19: extracting from the extracted tree gives the same tree again: the
    same root is selected and nothing more is removed. *)
Theorem extract_article_idempotent (soup : list node) :
  extract_article (as_document (extract_article soup))
  = extract_article soup.
Proof.
  unfold extract_article. cbv zeta.
  destruct (select_one is_article soup) as [a|] eqn:Ea.
  - destruct (select_one_found _ _ _ Ea) as (name & classes & c & -> & Hn).
    assert (Hd : as_document (decompose_all (Tag name classes c))
                 = [decompose_all (Tag name classes c)]).
    { unfold is_article in Hn. apply str_eqb_eq in Hn. subst name.
      reflexivity. }
    rewrite Hd, (extract_single is_article name classes c Hn).
    apply decompose_all_twice.
  - destruct (select_one is_md_content soup) as [d|] eqn:Ed.
    + destruct (select_one_found _ _ _ Ed) as (name & classes & c & -> & Hn).
      assert (Hd : as_document (decompose_all (Tag name classes c))
                   = [decompose_all (Tag name classes c)]).
      { unfold is_md_content in Hn. apply andb_prop in Hn as [Hn _].
        apply str_eqb_eq in Hn. subst name. reflexivity. }
      rewrite Hd.
      assert (Hna : select_one is_article
                      [decompose_all (Tag name classes c)] = None).
      { unfold select_one.
        pose proof (select_in_decompose_none is_article _
                      (select_one_inside _ _ _ _ Ea Ed)) as H.
        cbn [first_some]. rewrite H. reflexivity. }
      rewrite Hna, (extract_single is_md_content name classes c Hn).
      apply decompose_all_twice.
    + unfold soup_object. rewrite decompose_all_Tag.
      change (as_document (Tag (lit "[document]") [] (kept soup)))
        with (kept soup).
      rewrite (select_one_kept_none _ _ Ea), (select_one_kept_none _ _ Ed).
      unfold soup_object. rewrite decompose_all_Tag, kept_twice.
      reflexivity.
Qed.

End ExtractorFacts.

Section ExtractorWitnesses.

Import ContentExtractor ExtractorSpec FurtherInputs.


Lemma extract_article_keeps_clean_article_witness :
  extract_article page_with_article
  = Tag (lit "article") [] [Tag (lit "p") [] [NavigableString (lit "text")]].
Proof.
  apply (extract_article_keeps_clean_article page_with_article).
  - vm_compute. reflexivity.
  - vm_compute. repeat constructor.
Defined.

End ExtractorWitnesses.

Section IdMore.

Import LinkSource Persister.

Lemma rstrip_char_snoc (c : char) (s : str) (n : nat) :
  rstrip_char c (s ++ repeat c n) = rstrip_char c s.
Proof.
  induction n as [|n IH]; [rewrite app_nil_r; reflexivity|].
  cbn [repeat]. rewrite repeat_cons, app_assoc. unfold rstrip_char in *.
  rewrite rev_app_distr. simpl. rewrite eqc_refl. exact IH.
Qed.

(** X4: slashes at the end of a URL do not change the id, so a URL and the same
    URL with a trailing "/" are saved to the same file. *)
Theorem trailing_slashes_same_file (title title' url : str)
        (parent parent' : option str) (n : nat) :
  output_filename (mkLinkItem title' (url ++ repeat SLASH n) parent')
  = output_filename (mkLinkItem title url parent).
Proof.
  unfold output_filename, qiita_id_from_url. cbn [LinkSource.url].
  rewrite rstrip_char_snoc. reflexivity.
Qed.

End IdMore.
